(** * ElectronicStructureDriverResult

    A shallow embedding of
    [qiskit_nature/properties/second_quantization/electronic/electronic_structure_driver_result.py]
    and the properties of its persistence adapter, its legacy adapter and
    its operator collector. *)

From stdpp Require Import base option strings list gmap fin_maps.
From Stdlib Require Import ZArith.

Local Open Scope string_scope.
Local Open Scope list_scope.

(** ** Python dictionaries

    A Python [dict] keeps its keys unique and remembers insertion order.
    It is modelled as an association list on which [dict_set] overwrites
    in place or appends, exactly as [d[k] = v] does. *)

Definition dict (V : Type) : Type := list (string * V).

Fixpoint dict_get {V} (k : string) (d : dict V) : option V :=
  match d with
  | [] => None
  | (k', v) :: d' => if decide (k = k') then Some v else dict_get k d'
  end.

Fixpoint dict_set {V} (k : string) (v : V) (d : dict V) : dict V :=
  match d with
  | [] => [(k, v)]
  | (k', v') :: d' =>
      if decide (k = k') then (k, v) :: d' else (k', v') :: dict_set k v d'
  end.

(** [d.update(other)]: every item of [other], in order, is stored in [d]. *)
Definition dict_update {V} (d other : dict V) : dict V :=
  fold_left (λ acc kv, dict_set kv.1 kv.2 acc) other d.

Definition dict_keys {V} (d : dict V) : list string := d.*1.
Definition dict_values {V} (d : dict V) : list V := d.*2.
Arguments dict_keys : simpl never.
Arguments dict_values : simpl never.

(** The representation invariant of a dictionary: no key occurs twice. *)
Definition dict_wf {V} (d : dict V) : Prop := NoDup (dict_keys d).

(** ** Exceptions and effects

    Methods that mutate something outside their receiver, or that can raise,
    are computations over an explicit state [S]: the state reached is kept
    also when an exception escapes, as in Python. *)

Inductive Exception :=
| QiskitNatureError (kind : string)
| AttributeError (attribute : string)
| HDF5LoadError (child : string).

Definition Eff (S A : Type) : Type := S → S * (Exception + A).

Definition eff_ret {S A} (a : A) : Eff S A := λ s, (s, inr a).

Definition eff_bind {S A B} (f : A → Eff S B) (m : Eff S A) : Eff S B :=
  λ s, match m s with
       | (s', inl e) => (s', inl e)
       | (s', inr a) => f a s'
       end.

Definition raise {S A} (e : Exception) : Eff S A := λ s, (s, inl e).
Definition modify {S} (f : S → S) : Eff S () := λ s, (f s, inr ()).
Definition gets {S A} (f : S → A) : Eff S A := λ s, (s, inr (f s)).

#[global] Instance Eff_ret {S} : MRet (Eff S) := @eff_ret S.
#[global] Instance Eff_bind {S} : MBind (Eff S) := @eff_bind S.

(** A [for] loop whose body runs in [Eff] and threads a loop-carried value. *)
Fixpoint for_each {S A B} (xs : list A) (body : B → A → Eff S B) (b : B)
  : Eff S B :=
  match xs with
  | [] => mret b
  | x :: xs' => b' ← body b x; for_each xs' body b'
  end.

(** ** Collaborators outside this file

    The numeric carriers of NumPy, the operator type and the other legacy
    result variant are opaque to the class; they are the fields of
    [Carriers]. *)

Class Carriers : Type := {
  Scalar : Type;             (* a floating-point number *)
  Matrix : Type;             (* a coefficient array *)
  FermionicOp : Type;        (* a second-quantized operator *)
  WatsonHamiltonian : Type;  (* the vibrational legacy result *)
}.

Section DataModel.
Context `{Carriers}.

(** Modelled from the spec: the class [Molecule] is declared in another
    file; it is the "distinguished field molecule (geometry, charge,
    multiplicity)", built at line 133 from these three in the order
    geometry, multiplicity, charge. *)
Record Molecule := mkMolecule {
  geometry : list (string * list Scalar);
  mol_multiplicity : Z;
  mol_charge : Z;
}.

(** Modelled from the spec: the class [QMolecule] is declared in another
    file; these are the fields that lines 124-139 read, the "legacy
    driver-result object surface consumed", and what its method
    [has_dipole_integrals()] answers, which the legacy constructor of the
    dipole moment asks. *)
Record QMolecule := mkQMolecule {
  atom_symbol : list string;
  atom_xyz : list (list Scalar);
  multiplicity : Z;
  molecular_charge : Z;
  mo_coeff : Matrix;
  mo_coeff_b : option Matrix;
  origin_driver_name : string;
  origin_driver_version : string;
  origin_driver_config : string;
  has_dipole_integrals : bool;
}.

(** [LegacyDriverResult = Union[QMolecule, WatsonHamiltonian]]. *)
Inductive LegacyDriverResult :=
| LegacyQMolecule (qmol : QMolecule)
| LegacyWatsonHamiltonian (w : WatsonHamiltonian).

Inductive ElectronicBasis := AO | MO | SO.

(** The five property classes that [second_q_ops] enumerates. *)
Inductive PropertyClass :=
| ElectronicEnergy
| ParticleNumber
| AngularMomentum
| Magnetization
| ElectronicDipoleMoment.

Definition class_name (cls : PropertyClass) : string :=
  match cls with
  | ElectronicEnergy => "ElectronicEnergy"
  | ParticleNumber => "ParticleNumber"
  | AngularMomentum => "AngularMomentum"
  | Magnetization => "Magnetization"
  | ElectronicDipoleMoment => "ElectronicDipoleMoment"
  end.

(** What [second_q_ops()] of one [SecondQuantizedProperty] returns: a list
    when [settings.dict_aux_operators] is off, a mapping when it is on. *)
Record SecondQuantizedOps := mkOps {
  ops_list : list FermionicOp;
  ops_dict : dict FermionicOp;
}.

(** The property objects a group can hold.  [OtherProperty] stands for any
    class beyond the ones this file names; it is a
    [SecondQuantizedProperty] exactly when it carries operators. *)
Inductive Property :=
| ElectronicProperty (cls : PropertyClass) (ops : SecondQuantizedOps)
| ElectronicBasisTransform (initial final : ElectronicBasis)
                           (coeff_alpha : Matrix) (coeff_beta : option Matrix)
| DriverMetadata (program version config : string)
| OtherProperty (name : string) (ops : option SecondQuantizedOps).

(** What a group read back from storage can hold. *)
Inductive Member :=
| MoleculeMember (m : Molecule)
| PropertyMember (p : Property).

(** [isinstance(prop, Molecule)] *)
Definition is_Molecule (prop : Member) : bool :=
  match prop with MoleculeMember _ => true | PropertyMember _ => false end.

(** [isinstance(prop, SecondQuantizedProperty)], with the operators the
    instance then offers. *)
Definition as_SecondQuantizedProperty (prop : Property)
  : option SecondQuantizedOps :=
  match prop with
  | ElectronicProperty _ ops => Some ops
  | OtherProperty _ ops => ops
  | ElectronicBasisTransform _ _ _ _ | DriverMetadata _ _ _ => None
  end.

(** Modelled from the spec: the name under which a member is kept, in a
    group and in storage alike.  The collection is "keyed by class
    identity", so the name is that of the class, except for a property that
    was given a name of its own. *)
Class Named (T : Type) := name_of : T → string.

#[global] Instance Property_Named : Named Property := λ prop,
  match prop with
  | ElectronicProperty cls _ => class_name cls
  | ElectronicBasisTransform _ _ _ _ => "ElectronicBasisTransform"
  | DriverMetadata _ _ _ => "DriverMetadata"
  | OtherProperty name _ => name
  end.

#[global] Instance Member_Named : Named Member := λ prop,
  match prop with
  | MoleculeMember _ => "Molecule"
  | PropertyMember p => name_of p
  end.

(** Modelled from the spec: the base class [GroupedProperty] is not in this
    file.  It is "an ordered collection of named typed property objects,
    keyed by class identity, iterable": a dictionary from member names to
    members. *)
Record GroupedProperty (T : Type) := mkGroup {
  name : string;
  properties : dict T;
}.
#[global] Arguments mkGroup {T} _ _.
#[global] Arguments name {T} _.
#[global] Arguments properties {T} _.

(** Modelled from the spec: [GroupedProperty.add_property] stores the
    member under its name, in place of an older member of that name. *)
Definition GroupedProperty_add_property {T} `{Named T}
    (self : GroupedProperty T) (prop : T) : GroupedProperty T :=
  mkGroup (name self) (dict_set (name_of prop) prop (properties self)).

(** Modelled from the spec: [GroupedProperty.get_property] looks a name up
    and answers [None] when the group has no such member. *)
Definition GroupedProperty_get_property {T}
    (self : GroupedProperty T) (prop : string) : option T :=
  dict_get prop (properties self).

(** The representation invariant of a group: no name twice, and every
    member under its own name.  [add_property] is the only writer and
    keeps it. *)
Definition keyed {T} `{Named T} (d : dict T) : Prop :=
  Forall (λ kv, kv.1 = name_of kv.2) d.

Definition group_wf {T} `{Named T} (self : GroupedProperty T) : Prop :=
  dict_wf (properties self) ∧ keyed (properties self).

(** A member paired with the name it is stored under. *)
Definition named {T} `{Named T} (prop : T) : string * T := (name_of prop, prop).

(** Modelled from the spec: [GroupedProperty.__iter__], the members in
    insertion order. *)
Definition GroupedProperty_iter {T} (self : GroupedProperty T) : list T :=
  dict_values (properties self).

(** The class of this file: a group of properties and the [molecule]
    field of line 51. *)
Record ElectronicStructureDriverResult := mkResult {
  group : GroupedProperty Property;
  molecule : option Molecule;
}.

(** [__init__]: an empty group named after the class, no molecule. *)
Definition __init__ : ElectronicStructureDriverResult :=
  mkResult (mkGroup "ElectronicStructureDriverResult" []) None.

(** [self.get_property(cls)], the lookup by the name of the class. *)
Definition get_property (self : ElectronicStructureDriverResult)
    (cls : PropertyClass) : option Property :=
  GroupedProperty_get_property (group self) (class_name cls).

(** What the construction of an instance does to it, in order. *)
Inductive Event :=
| LegacyConverted (cls : string)
| PropertyAdded (prop : string)
| MoleculeAssigned (m : Molecule).

Definition Log : Type := list Event.
Definition emit (e : Event) : Eff Log () := modify (λ log, log ++ [e]).

(** [ret.add_property(prop)] *)
Definition add_property (ret : ElectronicStructureDriverResult)
    (prop : Property) : Eff Log ElectronicStructureDriverResult :=
  emit (PropertyAdded (name_of prop));;
  mret (mkResult (GroupedProperty_add_property (group ret) prop)
                 (molecule ret)).

(** [ret.add_property(prop)] for a [prop] that may be [None].  Modelled from
    the spec: the base class takes an optional property and adds nothing
    for [None]; line 165 reckons with the class that is missing then. *)
Definition add_property_or_None (ret : ElectronicStructureDriverResult)
    (prop : option Property) : Eff Log ElectronicStructureDriverResult :=
  match prop with
  | Some prop => add_property ret prop
  | None => mret ret
  end.

(** [ret.molecule = m] *)
Definition set_molecule (ret : ElectronicStructureDriverResult)
    (m : Molecule) : Eff Log ElectronicStructureDriverResult :=
  emit (MoleculeAssigned m);;
  mret (mkResult (group ret) (Some m)).

Definition is_assignment (e : Event) : bool :=
  match e with MoleculeAssigned _ => true | _ => false end.

(** How often the [molecule] field was assigned. *)
Definition molecule_assignments (log : Log) : nat :=
  length (List.filter is_assignment log).
End DataModel.

(** The functions of the repository that the class delegates to and that
    live in other files: NumPy's product of a coordinate with a float, the
    unit constant [qiskit_nature.constants.BOHR], and the legacy constructor
    of each of the five property classes. *)
Class Delegates `{Carriers} : Type := {
  scalar_mul : Scalar → Scalar → Scalar;
  BOHR : Scalar;
  legacy_ops : PropertyClass → QMolecule → SecondQuantizedOps;
}.

(** The serialization of one member, which every member implements itself:
    the nested group it writes, and what is read back from such a group. *)
Class Codec `{Carriers} : Type := {
  Node : Type;
  encode : Member → Node;
  decode : Node → option Member;
}.

(** [qiskit_nature.settings]: the process-wide configuration. *)
Record Settings := mkSettings { dict_aux_operators : bool }.

Inductive ListOrDictType (A : Type) :=
| OpsList (ops : list A)
| OpsDict (ops : dict A).
Arguments OpsList {A} _.
Arguments OpsDict {A} _.

Section LegacyAdapter.
Context `{Delegates}.

(** Modelled from the spec: [_validate_input_type] is inherited.  A
    type mismatch "surfaces as a domain-specific error (kind: invalid input
    type)"; the accepted variant is handed on as a [QMolecule], which is
    what the [cast] after it asserts. *)
Definition _validate_input_type (result : LegacyDriverResult)
  : Eff Log QMolecule :=
  match result with
  | LegacyQMolecule qmol => mret qmol
  | LegacyWatsonHamiltonian _ => raise (QiskitNatureError "invalid input type")
  end.

(** Modelled from the spec: [cls.from_legacy_driver_result(qmol)] of a
    property class, "each property's own legacy-conversion constructor".
    It returns an object of that class; the constructor of
    [ElectronicDipoleMoment] alone returns [None] instead when the
    [QMolecule] has no dipole integrals. *)
Definition Property_from_legacy_driver_result (cls : PropertyClass)
    (qmol : QMolecule) : Eff Log (option Property) :=
  emit (LegacyConverted (class_name cls));;
  mret (match cls with
        | ElectronicDipoleMoment =>
            if has_dipole_integrals qmol
            then Some (ElectronicProperty cls (legacy_ops cls qmol))
            else None
        | _ => Some (ElectronicProperty cls (legacy_ops cls qmol))
        end).

(** [xyz * BOHR] on one row of coordinates. *)
Definition array_mul (xyz : list Scalar) (c : Scalar) : list Scalar :=
  (λ x, scalar_mul x c) <$> xyz.

(** The loop of lines 128-131. *)
Definition legacy_geometry (qmol : QMolecule) : list (string * list Scalar) :=
  fold_left (λ geometry '(atom, xyz), geometry ++ [(atom, array_mul xyz BOHR)])
            (zip (atom_symbol qmol) (atom_xyz qmol)) [].

(** Lines 93-143. *)
Definition from_legacy_driver_result (result : LegacyDriverResult)
  : Eff Log ElectronicStructureDriverResult :=
  qmol ← _validate_input_type result;
  let ret := __init__ in
  prop ← Property_from_legacy_driver_result ElectronicEnergy qmol;
  ret ← add_property_or_None ret prop;
  prop ← Property_from_legacy_driver_result ParticleNumber qmol;
  ret ← add_property_or_None ret prop;
  prop ← Property_from_legacy_driver_result AngularMomentum qmol;
  ret ← add_property_or_None ret prop;
  prop ← Property_from_legacy_driver_result Magnetization qmol;
  ret ← add_property_or_None ret prop;
  prop ← Property_from_legacy_driver_result ElectronicDipoleMoment qmol;
  ret ← add_property_or_None ret prop;
  ret ← add_property ret
          (ElectronicBasisTransform AO MO (mo_coeff qmol) (mo_coeff_b qmol));
  let geometry := legacy_geometry qmol in
  ret ← set_molecule ret
          (mkMolecule geometry (multiplicity qmol) (molecular_charge qmol));
  ret ← add_property ret
          (DriverMetadata (origin_driver_name qmol)
                          (origin_driver_version qmol)
                          (origin_driver_config qmol));
  mret ret.

(** What the conversion of a [QMolecule] does, step by step. *)
Definition legacy_log (qmol : QMolecule) : Log :=
  [LegacyConverted "ElectronicEnergy"; PropertyAdded "ElectronicEnergy";
   LegacyConverted "ParticleNumber"; PropertyAdded "ParticleNumber";
   LegacyConverted "AngularMomentum"; PropertyAdded "AngularMomentum";
   LegacyConverted "Magnetization"; PropertyAdded "Magnetization";
   LegacyConverted "ElectronicDipoleMoment"]
  ++ (if has_dipole_integrals qmol
      then [PropertyAdded "ElectronicDipoleMoment"] else [])
  ++ [PropertyAdded "ElectronicBasisTransform";
      MoleculeAssigned (mkMolecule (legacy_geometry qmol) (multiplicity qmol)
                                   (molecular_charge qmol));
      PropertyAdded "DriverMetadata"].

(** The properties of the five classes on a converted instance: the dipole
    moment is among them when the [QMolecule] has dipole integrals. *)
Definition legacy_properties (qmol : QMolecule) : list Property :=
  [ElectronicProperty ElectronicEnergy (legacy_ops ElectronicEnergy qmol);
   ElectronicProperty ParticleNumber (legacy_ops ParticleNumber qmol);
   ElectronicProperty AngularMomentum (legacy_ops AngularMomentum qmol);
   ElectronicProperty Magnetization (legacy_ops Magnetization qmol)]
  ++ (if has_dipole_integrals qmol
      then [ElectronicProperty ElectronicDipoleMoment
                               (legacy_ops ElectronicDipoleMoment qmol)]
      else []).
End LegacyAdapter.

Section OperatorCollector.
Context `{Carriers}.

(** The list of lines 157-163. *)
Definition expected_classes : list PropertyClass :=
  [ElectronicEnergy; ParticleNumber; AngularMomentum; Magnetization;
   ElectronicDipoleMoment].

(** One turn of the loop of lines 157-167. *)
Definition extend_with (self : ElectronicStructureDriverResult)
    (ops : list FermionicOp) (cls : PropertyClass) : list FermionicOp :=
  match get_property self cls with
  | None => ops
  | Some prop =>
      match as_SecondQuantizedProperty prop with
      | None => ops
      | Some sq => ops ++ ops_list sq
      end
  end.

(** One turn of the loop of lines 171-174. *)
Definition update_with (ops : dict FermionicOp) (prop : Property)
  : dict FermionicOp :=
  match as_SecondQuantizedProperty prop with
  | None => ops
  | Some sq => dict_update ops (ops_dict sq)
  end.

(** Lines 145-175; the process-wide [settings] are passed in. *)
Definition second_q_ops (settings : Settings)
    (self : ElectronicStructureDriverResult) : ListOrDictType FermionicOp :=
  if negb (dict_aux_operators settings) then
    OpsList (fold_left (extend_with self) expected_classes [])
  else
    OpsDict (fold_left update_with (GroupedProperty_iter (group self)) []).

(** What the class [cls] has to offer in list mode, in the words of the
    spec: the operators of the property found under it, nothing for "any
    missing property". *)
Definition contribution (self : ElectronicStructureDriverResult)
    (cls : PropertyClass) : list FermionicOp :=
  match get_property self cls ≫= as_SecondQuantizedProperty with
  | Some sq => ops_list sq
  | None => []
  end.

(** The mapping in a result, empty for a result that is a list. *)
Definition operators_dict (ops : ListOrDictType FermionicOp)
  : dict FermionicOp :=
  match ops with
  | OpsList _ => []
  | OpsDict ops => ops
  end.

End OperatorCollector.

Section Persistence.
Context `{Codec}.

(** Modelled from the spec: the "HDF5-like hierarchical group structure: a
    named group per instance, containing nested groups for each
    sub-property and the molecule".  A parent group maps the name of an
    instance to the instance's group, which maps the name of a member to
    the nested group that member wrote. *)
Abbreviation h5py_File := (gmap string (gmap string Node)).

(** A group opened for reading: its name and its children. *)
Record h5py_Group := mkH5 {
  h5_name : string;
  h5_children : gmap string Node;
}.

(** What [parent.require_group(name)] of h5py leaves behind: the group of
    that name, created empty when the parent has none. *)
Definition ensure_group (group_name : string) (parent : h5py_File)
  : h5py_File :=
  match parent !! group_name with
  | Some _ => parent
  | None => <[group_name := ∅]> parent
  end.

(** [parent.require_group(name)]; the handle returned is the name. *)
Definition require_group (group_name : string) : Eff h5py_File string :=
  modify (ensure_group group_name);;
  mret group_name.

(** Modelled from the spec: [member.to_hdf5(group)] of a property or of
    the molecule, which live in other files.  The member writes its nested
    group, named after itself, into the open group.  This is the write where
    it goes through: a member may also refuse a value that the storage cannot
    hold, or data already stored under its name, and nothing below speaks of
    these refusals. *)
Definition Member_to_hdf5 (member : Member) (handle : string)
  : Eff h5py_File () :=
  modify (λ parent : h5py_File,
            alter (λ children : gmap string Node,
                     <[name_of member := encode member]> children)
                  handle parent).

(** A member as it sits in its group: its name and what it wrote. *)
Definition stored (member : Member) : string * Node :=
  (name_of member, encode member).

(** Modelled from the spec: [GroupedProperty.to_hdf5], which "serializes
    the grouped property set by delegating to each member's own
    serialization". *)
Definition GroupedProperty_to_hdf5 (self : GroupedProperty Property)
  : Eff h5py_File () :=
  handle ← require_group (name self);
  for_each (GroupedProperty_iter self)
           (λ _ prop, Member_to_hdf5 (PropertyMember prop) handle) ().

(** The children of a group after the listed properties wrote themselves
    into it, one after the other. *)
Definition write_properties (props : list Property)
    (children : gmap string Node) : gmap string Node :=
  fold_left (λ children prop,
               <[name_of prop := encode (PropertyMember prop)]> children)
            props children.

(** Lines 58-68.  With [molecule] still [None], line 68 looks [to_hdf5] up
    on [None] and raises. *)
Definition to_hdf5 (self : ElectronicStructureDriverResult)
  : Eff h5py_File () :=
  GroupedProperty_to_hdf5 (group self);;
  handle ← require_group (name (group self));
  match molecule self with
  | None => raise (AttributeError "to_hdf5")
  | Some m => Member_to_hdf5 (MoleculeMember m) handle
  end.

(** The group of the instance after [to_hdf5], as a function of what the
    group held before. *)
Definition written_children (self : ElectronicStructureDriverResult)
    (children : gmap string Node) : gmap string Node :=
  let written := write_properties (GroupedProperty_iter (group self)) children in
  match molecule self with
  | Some m => <["Molecule" := encode (MoleculeMember m)]> written
  | None => written
  end.

(** Modelled from the spec: the loop of [GroupedProperty.from_hdf5], which
    restores the collection by reading every child of the group back through
    the member's own deserialization and adding it. *)
Fixpoint load_members (children : list (string * Node))
    (ret : GroupedProperty Member) : Exception + GroupedProperty Member :=
  match children with
  | [] => inr ret
  | (child, node) :: rest =>
      match decode node with
      | None => inl (HDF5LoadError child)
      | Some prop => load_members rest (GroupedProperty_add_property ret prop)
      end
  end.

(** Modelled from the spec: [GroupedProperty.from_hdf5], a group named
    like the stored one and filled with the children read back. *)
Definition GroupedProperty_from_hdf5 (h5py_group : h5py_Group)
  : Exception + GroupedProperty Member :=
  load_members (map_to_list (h5_children h5py_group))
               (mkGroup (h5_name h5py_group) []).

Definition lift {S A} (r : Exception + A) : Eff S A :=
  match r with inl e => raise e | inr a => mret a end.

(** One turn of the loop of lines 85-89. *)
Definition route (ret : ElectronicStructureDriverResult) (prop : Member)
  : Eff Log ElectronicStructureDriverResult :=
  match prop with
  | MoleculeMember m => set_molecule ret m
  | PropertyMember p => add_property ret p
  end.

(** What one turn of that loop does to the instance. *)
Definition route_event (prop : Member) : Event :=
  match prop with
  | MoleculeMember m => MoleculeAssigned m
  | PropertyMember p => PropertyAdded (name_of p)
  end.

(** The members of either kind in a list of members, in order. *)
Definition members_properties (members : list Member) : list Property :=
  omap (λ prop, match prop with PropertyMember p => Some p | _ => None end)
       members.

Definition members_molecules (members : list Member) : list Molecule :=
  omap (λ prop, match prop with MoleculeMember m => Some m | _ => None end)
       members.

(** Lines 70-91. *)
Definition from_hdf5 (h5py_group : h5py_Group)
  : Eff Log ElectronicStructureDriverResult :=
  grouped_property ← lift (GroupedProperty_from_hdf5 h5py_group);
  for_each (GroupedProperty_iter grouped_property) route __init__.

(** [to_hdf5] into [parent], then [from_hdf5] on the group it wrote. *)
Definition round_trip (self : ElectronicStructureDriverResult)
    (parent : h5py_File) : Exception + ElectronicStructureDriverResult :=
  match to_hdf5 self parent with
  | (_, inl e) => inl e
  | (written, inr _) =>
      match written !! name (group self) with
      | None => inl (HDF5LoadError (name (group self)))
      | Some children =>
          (from_hdf5 (mkH5 (name (group self)) children) []).2
      end
  end.
End Persistence.

(** ** Concrete collaborators

    Integers for the numbers, labels for the operators, and a storage that
    keeps each member as it is.  They are what the closed examples further
    down are evaluated with. *)
Module Examples.
#[local] Instance carriers : Carriers :=
  {| Scalar := Z; Matrix := list (list Z); FermionicOp := string;
     WatsonHamiltonian := () |}.

#[local] Instance delegates : Delegates :=
  {| scalar_mul := Z.mul; BOHR := 2%Z;
     legacy_ops := λ cls _,
       mkOps [class_name cls] [(class_name cls, class_name cls)] |}.

#[local] Instance codec : Codec :=
  {| Node := Member; encode := id; decode := Some |}.

(** A hydrogen molecule, 2 Bohr apart. *)
Definition h2 : QMolecule :=
  mkQMolecule ["H"; "H"] [[0; 0; 0]; [0; 0; 2]]%Z 1 0
              [[1; 1]; [1; -1]]%Z None "PYSCF" "2.0" "atom=H 0 0 0; H 0 0 2"
              true.

(** The same molecule from a driver that computed no dipole integrals. *)
Definition h2_without_dipole : QMolecule :=
  mkQMolecule ["H"; "H"] [[0; 0; 0]; [0; 0; 2]]%Z 1 0
              [[1; 1]; [1; -1]]%Z None "HDF5" "1.0" "h2.hdf5" false.

Definition h2_molecule : Molecule :=
  mkMolecule [("H", [0; 0; 0]); ("H", [0; 0; 4])]%Z 1 0.

Definition energy : Property :=
  ElectronicProperty ElectronicEnergy (mkOps ["H"] [("ElectronicEnergy", "H")]).

Definition number : Property :=
  ElectronicProperty ParticleNumber (mkOps ["N"] [("ParticleNumber", "N")]).

(** A second-quantized property of a class outside the fixed five. *)
Definition custom : Property :=
  OtherProperty "Custom" (Some (mkOps ["C"] [("Custom", "C")])).

(** A second-quantized property that reuses the key of [energy]. *)
Definition shadow_ops : SecondQuantizedOps :=
  mkOps ["S"] [("ElectronicEnergy", "S")].

Definition shadow : Property := OtherProperty "Shadow" (Some shadow_ops).

(** A property that happens to be named like the molecule's group. *)
Definition namesake : Property :=
  OtherProperty "Molecule" None.

Definition with_properties (props : list Property) (m : option Molecule)
  : ElectronicStructureDriverResult :=
  mkResult (fold_left GroupedProperty_add_property props (group __init__)) m.

(** An instance that can be stored, and one that has no molecule yet. *)
Definition complete : ElectronicStructureDriverResult :=
  with_properties [energy; number; custom] (Some h2_molecule).

Definition incomplete : ElectronicStructureDriverResult :=
  with_properties [energy] None.

(** An instance with a property in the molecule's place. *)
Definition clashing : ElectronicStructureDriverResult :=
  with_properties [energy; namesake] (Some h2_molecule).

(** A parent that holds an older group of the same name. *)
Definition used_parent : gmap string (gmap string Node) :=
  {[ "ElectronicStructureDriverResult" :=
       {[ "Shadow" := PropertyMember shadow ]} ]}.

(** A stored group with a property and a molecule. *)
Definition stored_group : h5py_Group :=
  mkH5 "run-42"
       {[ "ElectronicEnergy" := PropertyMember energy;
          "Molecule" := MoleculeMember h2_molecule ]}.

(** An instance whose only member offers no operators. *)
Definition silent : ElectronicStructureDriverResult :=
  with_properties [namesake] None.

(** A stored group without a molecule. *)
Definition molecule_free : h5py_Group :=
  mkH5 "ElectronicStructureDriverResult"
       {[ "ElectronicEnergy" := PropertyMember energy ]}.
End Examples.

(** ** Dictionaries keep their invariant *)

Section DictFacts.
Context {V : Type}.
Implicit Types (d : dict V) (k : string) (v : V).

Lemma dict_get_set k k' v d :
  dict_get k (dict_set k' v d) = if decide (k = k') then Some v else dict_get k d.
Proof.
  induction d as [|[k0 v0] d IH]; simpl.
  - by destruct (decide (k = k')).
  - destruct (decide (k' = k0)) as [->|Hne]; simpl.
    + by destruct (decide (k = k0)).
    + destruct (decide (k = k0)) as [->|]; [|done].
      by rewrite decide_False by congruence.
Qed.

Lemma dict_keys_cons k v d : dict_keys ((k, v) :: d) = k :: dict_keys d.
Proof. reflexivity. Qed.

Lemma dict_get_None k d : dict_get k d = None ↔ k ∉ dict_keys d.
Proof.
  induction d as [|[k0 v0] d IH].
  - split; [intros _; apply not_elem_of_nil | done].
  - rewrite dict_keys_cons, not_elem_of_cons. simpl.
    destruct (decide (k = k0)) as [->|Hne].
    + split; [discriminate | by intros [? _]].
    + rewrite IH. split; [done | by intros [_ ?]].
Qed.

Lemma dict_get_Some_elem k v d : dict_get k d = Some v → (k, v) ∈ d.
Proof.
  induction d as [|[k0 v0] d IH]; simpl; [done|].
  destruct (decide (k = k0)) as [->|].
  - intros [= ->]. apply elem_of_cons; by left.
  - intros. apply elem_of_cons; right; auto.
Qed.

Lemma dict_elem_key k v d : (k, v) ∈ d → k ∈ dict_keys d.
Proof. intros Hin. by apply (list_elem_of_fmap_2 fst) in Hin. Qed.

Lemma dict_wf_cons k v d :
  dict_wf ((k, v) :: d) ↔ (k ∉ dict_keys d) ∧ dict_wf d.
Proof. unfold dict_wf. rewrite dict_keys_cons. apply NoDup_cons. Qed.

Lemma dict_get_elem k v d : dict_wf d → (k, v) ∈ d → dict_get k d = Some v.
Proof.
  induction d as [|[k0 v0] d IH].
  - intros _ Hin. by apply elem_of_nil in Hin.
  - rewrite dict_wf_cons. intros [Hk0 Hnd] [[= -> ->]|Hin]%elem_of_cons; simpl.
    + by rewrite decide_True.
    + rewrite decide_False; [auto|].
      intros ->. by apply Hk0, dict_elem_key with v.
Qed.

Lemma dict_keys_set_old k v d :
  k ∈ dict_keys d → dict_keys (dict_set k v d) = dict_keys d.
Proof.
  induction d as [|[k0 v0] d IH].
  - intros Hin. by apply elem_of_nil in Hin.
  - rewrite dict_keys_cons. simpl.
    destruct (decide (k = k0)) as [->|Hne]; [done|].
    intros [?|Hin]%elem_of_cons; [done|].
    by rewrite !dict_keys_cons, IH.
Qed.

Lemma dict_set_fresh k v d : k ∉ dict_keys d → dict_set k v d = d ++ [(k, v)].
Proof.
  induction d as [|[k0 v0] d IH]; [done|].
  rewrite dict_keys_cons, not_elem_of_cons. intros [Hne Hin]. simpl.
  rewrite decide_False by done. by rewrite IH.
Qed.

Lemma dict_keys_set_new k v d :
  k ∉ dict_keys d → dict_keys (dict_set k v d) = dict_keys d ++ [k].
Proof.
  intros Hout. rewrite dict_set_fresh by done.
  unfold dict_keys. by rewrite fmap_app.
Qed.

Lemma dict_set_wf k v d : dict_wf d → dict_wf (dict_set k v d).
Proof.
  unfold dict_wf. intros Hwf. destruct (decide (k ∈ dict_keys d)) as [Hin|Hout].
  - by rewrite dict_keys_set_old.
  - rewrite dict_keys_set_new by done.
    apply NoDup_app. split_and!; [done| |apply NoDup_singleton].
    intros x Hx ->%list_elem_of_singleton. done.
Qed.

Lemma dict_update_wf d other : dict_wf d → dict_wf (dict_update d other).
Proof.
  unfold dict_update. revert d.
  induction other as [|[k v] other IH]; simpl; [done|].
  intros d Hwf. apply IH. by apply dict_set_wf.
Qed.

(** After [d.update(other)], a key of [other] has the value [other] gives
    it, and any other key keeps the value it had in [d]. *)
Lemma dict_get_update k d other :
  dict_wf other →
  dict_get k (dict_update d other)
  = match dict_get k other with Some v => Some v | None => dict_get k d end.
Proof.
  unfold dict_update. revert d.
  induction other as [|[k0 v0] other IH]; simpl; [done|].
  intros d [Hk0 Hnd]%dict_wf_cons. rewrite IH by done.
  rewrite dict_get_set. destruct (decide (k = k0)) as [->|]; [|done].
  apply dict_get_None in Hk0. by rewrite Hk0.
Qed.
End DictFacts.

Section DictKeys.
Context {V : Type}.
Implicit Types (d : dict V) (k : string) (v : V).

Lemma dict_key_get k d : k ∈ dict_keys d ↔ is_Some (dict_get k d).
Proof.
  rewrite <-not_eq_None_Some, dict_get_None.
  split; [auto | apply dec_stable].
Qed.

Lemma dict_keys_update k d other :
  k ∈ dict_keys (dict_update d other) ↔ k ∈ dict_keys other ∨ k ∈ dict_keys d.
Proof.
  unfold dict_update. revert d.
  induction other as [|[k0 v0] other IH]; intros d; simpl.
  - split; [by right | intros [Hin|]; [by apply elem_of_nil in Hin | done]].
  - rewrite IH, dict_keys_cons, elem_of_cons.
    rewrite (dict_key_get k (dict_set _ _ _)), dict_get_set, (dict_key_get k d).
    destruct (decide (k = k0)) as [->|Hne].
    + split; [intros _; by left; left | intros _; right; by eexists].
    + tauto.
Qed.

Lemma dict_get_update_other k d other :
  k ∉ dict_keys other → dict_get k (dict_update d other) = dict_get k d.
Proof.
  unfold dict_update. revert d.
  induction other as [|[k0 v0] other IH]; intros d; simpl; [done|].
  rewrite dict_keys_cons, not_elem_of_cons. intros [Hne Hout].
  rewrite IH by done. rewrite dict_get_set. by rewrite decide_False.
Qed.
End DictKeys.

(** ** The operator collector *)

Section OperatorCollectorFacts.
Context `{Carriers}.
Implicit Types (self : ElectronicStructureDriverResult) (prop : Property).

Lemma extend_with_contribution self ops cls :
  extend_with self ops cls = ops ++ contribution self cls.
Proof.
  unfold extend_with, contribution.
  destruct (get_property self cls) as [prop|]; simpl.
  - destruct (as_SecondQuantizedProperty prop); [done | by rewrite app_nil_r].
  - by rewrite app_nil_r.
Qed.

Lemma fold_extend_with self classes ops :
  fold_left (extend_with self) classes ops
  = ops ++ concat (contribution self <$> classes).
Proof.
  revert ops. induction classes as [|cls classes IH]; intros ops; simpl.
  - by rewrite app_nil_r.
  - by rewrite IH, extend_with_contribution, <-app_assoc.
Qed.

Lemma update_with_wf ops prop : dict_wf ops → dict_wf (update_with ops prop).
Proof.
  unfold update_with. destruct (as_SecondQuantizedProperty prop); [|done].
  apply dict_update_wf.
Qed.

Lemma fold_update_with_wf props ops :
  dict_wf ops → dict_wf (fold_left update_with props ops).
Proof.
  revert ops. induction props as [|prop props IH]; intros ops Hwf; simpl.
  - done.
  - by apply IH, update_with_wf.
Qed.

(** A key survives the members that do not offer it. *)
Lemma fold_update_with_keeps props ops key op :
  (∀ prop sq, prop ∈ props → as_SecondQuantizedProperty prop = Some sq →
              key ∉ dict_keys (ops_dict sq)) →
  dict_get key ops = Some op →
  dict_get key (fold_left update_with props ops) = Some op.
Proof.
  revert ops. induction props as [|prop props IH]; intros ops Hafter Hget; simpl.
  - done.
  - apply IH.
    + intros p sq Hp. apply Hafter, elem_of_cons. by right.
    + unfold update_with.
      destruct (as_SecondQuantizedProperty prop) as [sq|] eqn:Hsq; [|done].
      rewrite dict_get_update_other; [done|].
      apply (Hafter prop sq); [apply elem_of_cons; by left | done].
Qed.


(** C3: with the flag off, [second_q_ops] returns the contributions of
    ElectronicEnergy, ParticleNumber, AngularMomentum, Magnetization and
    ElectronicDipoleMoment in this order, a missing property contributing
    nothing; with the flag on, the mapping returned has no key twice. *)
Theorem second_q_ops_order_and_unique_keys self :
  second_q_ops (mkSettings false) self
  = OpsList (contribution self ElectronicEnergy
             ++ contribution self ParticleNumber
             ++ contribution self AngularMomentum
             ++ contribution self Magnetization
             ++ contribution self ElectronicDipoleMoment)
  ∧ (∀ cls, get_property self cls = None → contribution self cls = [])
  ∧ ∃ ops, second_q_ops (mkSettings true) self = OpsDict ops
           ∧ NoDup (dict_keys ops).
Proof.
  split_and!.
  - unfold second_q_ops. cbn [negb dict_aux_operators].
    rewrite fold_extend_with. simpl. by rewrite app_nil_r.
  - intros cls Hnone. unfold contribution. by rewrite Hnone.
  - eexists. split; [reflexivity|].
    apply fold_update_with_wf. apply NoDup_nil_2.
Qed.

(** C6: with the flag on, a key that several members offer ends up with
    the value of the member iterated last among them. *)
Theorem second_q_ops_last_write_wins self before prop after sq key op :
  GroupedProperty_iter (group self) = before ++ prop :: after →
  as_SecondQuantizedProperty prop = Some sq →
  dict_wf (ops_dict sq) →
  dict_get key (ops_dict sq) = Some op →
  (∀ later sq', later ∈ after → as_SecondQuantizedProperty later = Some sq' →
                key ∉ dict_keys (ops_dict sq')) →
  ∃ ops, second_q_ops (mkSettings true) self = OpsDict ops
         ∧ dict_get key ops = Some op.
Proof.
  intros Hiter Hsq Hwf Hget Hafter. eexists. split; [reflexivity|].
  rewrite Hiter, fold_left_app. simpl.
  apply fold_update_with_keeps; [done|].
  unfold update_with. rewrite Hsq, dict_get_update by done. by rewrite Hget.
Qed.

End OperatorCollectorFacts.

(** Running a computation of [Eff] amounts to unfolding its binds. *)
Ltac run_eff :=
  unfold mbind, Eff_bind, eff_bind, mret, Eff_ret, eff_ret, raise, modify, gets;
  simpl.

(** ** The legacy adapter *)

Section LegacyAdapterFacts.
Context `{Delegates}.

Lemma fold_geometry (atoms : list (string * list Scalar)) geometry :
  fold_left (λ geometry '(atom, xyz), geometry ++ [(atom, array_mul xyz BOHR)])
            atoms geometry
  = geometry ++ ((λ '(atom, xyz), (atom, array_mul xyz BOHR)) <$> atoms).
Proof.
  revert geometry. induction atoms as [|[atom xyz] atoms IH]; intros geometry.
  - simpl. by rewrite app_nil_r.
  - simpl. by rewrite IH, <-app_assoc.
Qed.

Lemma legacy_geometry_zip qmol :
  legacy_geometry qmol
  = zip_with (λ atom xyz, (atom, array_mul xyz BOHR))
             (atom_symbol qmol) (atom_xyz qmol).
Proof.
  unfold legacy_geometry. rewrite fold_geometry. simpl.
  generalize (atom_xyz qmol).
  induction (atom_symbol qmol) as [|atom atoms IH]; intros [|xyz rows]; simpl;
    [done..|]. by rewrite IH.
Qed.

(** The conversion of a [QMolecule], run to its end. *)
Lemma from_legacy_driver_result_exact qmol log :
  from_legacy_driver_result (LegacyQMolecule qmol) log
  = (log ++ legacy_log qmol,
     inr (mkResult
            (mkGroup "ElectronicStructureDriverResult"
               (named <$>
                  legacy_properties qmol
                  ++ [ElectronicBasisTransform AO MO (mo_coeff qmol)
                                               (mo_coeff_b qmol);
                      DriverMetadata (origin_driver_name qmol)
                                     (origin_driver_version qmol)
                                     (origin_driver_config qmol)]))
            (Some (mkMolecule (legacy_geometry qmol) (multiplicity qmol)
                              (molecular_charge qmol))))).
Proof.
  unfold from_legacy_driver_result, Property_from_legacy_driver_result.
  unfold legacy_log, legacy_properties. simpl.
  unfold add_property_or_None, add_property, emit. run_eff.
  destruct (has_dipole_integrals qmol); run_eff;
    rewrite <-!app_assoc; reflexivity.
Qed.

Lemma from_legacy_driver_result_log qmol log :
  ∃ ret, from_legacy_driver_result (LegacyQMolecule qmol) log
         = (log ++ legacy_log qmol, inr ret).
Proof. eexists. apply from_legacy_driver_result_exact. Qed.

Lemma legacy_log_assignments qmol : molecule_assignments (legacy_log qmol) = 1.
Proof. unfold legacy_log. by destruct (has_dipole_integrals qmol). Qed.

(** C2, as the code has it: the conversion of a [QMolecule] returns an
    instance whose members are one property of each of ElectronicEnergy,
    ParticleNumber, AngularMomentum and Magnetization, the property of
    ElectronicDipoleMoment exactly when the [QMolecule] has dipole integrals,
    one basis transform and one metadata object, and whose molecule is
    set. *)
Theorem from_legacy_driver_result_members qmol :
  ∃ log ret,
    from_legacy_driver_result (LegacyQMolecule qmol) [] = (log, inr ret)
    ∧ GroupedProperty_iter (group ret)
      = [ElectronicProperty ElectronicEnergy (legacy_ops ElectronicEnergy qmol);
         ElectronicProperty ParticleNumber (legacy_ops ParticleNumber qmol);
         ElectronicProperty AngularMomentum (legacy_ops AngularMomentum qmol);
         ElectronicProperty Magnetization (legacy_ops Magnetization qmol)]
        ++ (if has_dipole_integrals qmol
            then [ElectronicProperty ElectronicDipoleMoment
                                     (legacy_ops ElectronicDipoleMoment qmol)]
            else [])
        ++ [ElectronicBasisTransform AO MO (mo_coeff qmol) (mo_coeff_b qmol);
            DriverMetadata (origin_driver_name qmol) (origin_driver_version qmol)
                           (origin_driver_config qmol)]
    ∧ (get_property ret ElectronicDipoleMoment = None
       ↔ has_dipole_integrals qmol = false)
    ∧ is_Some (molecule ret).
Proof.
  do 2 eexists. split; [apply from_legacy_driver_result_exact|].
  unfold legacy_properties.
  destruct (has_dipole_integrals qmol); split_and!; try done; by eexists.
Qed.

(** C4: the geometry of the molecule built from a [QMolecule] pairs every
    atom symbol with its row of coordinates, each coordinate multiplied by
    [BOHR]; two atoms give a geometry of length two. *)
Theorem from_legacy_driver_result_geometry qmol :
  ∃ log ret m,
    from_legacy_driver_result (LegacyQMolecule qmol) [] = (log, inr ret)
    ∧ molecule ret = Some m
    ∧ geometry m
      = zip_with (λ atom xyz, (atom, (λ x, scalar_mul x BOHR) <$> xyz))
                 (atom_symbol qmol) (atom_xyz qmol)
    ∧ (∀ i j atom xyz x,
         atom_symbol qmol !! i = Some atom →
         atom_xyz qmol !! i = Some xyz →
         xyz !! j = Some x →
         ∃ scaled, geometry m !! i = Some (atom, scaled)
                   ∧ scaled !! j = Some (scalar_mul x BOHR))
    ∧ (length (atom_symbol qmol) = 2 → length (atom_xyz qmol) = 2 →
       length (geometry m) = 2).
Proof.
  do 3 eexists. split; [apply from_legacy_driver_result_exact|].
  split_and!; [reflexivity | ..]; simpl.
  - apply legacy_geometry_zip.
  - intros i j atom xyz x Hatom Hxyz Hx. eexists.
    rewrite legacy_geometry_zip, lookup_zip_with, Hatom, Hxyz. simpl.
    split; [reflexivity|]. unfold array_mul. by rewrite list_lookup_fmap, Hx.
  - intros Hatoms Hrows.
    rewrite legacy_geometry_zip, length_zip_with, Hatoms, Hrows. done.
Qed.

(** C5: a legacy result that is not a [QMolecule] is rejected with the
    invalid-input-type error before anything is converted: no step is
    logged and no instance is returned. *)
Theorem from_legacy_driver_result_rejects result log :
  (∀ qmol, result ≠ LegacyQMolecule qmol) →
  from_legacy_driver_result result log
  = (log, inl (QiskitNatureError "invalid input type")).
Proof.
  intros Hother. destruct result as [qmol|w]; [by destruct (Hother qmol)|].
  reflexivity.
Qed.
End LegacyAdapterFacts.

(** ** The persistence adapter: writing *)

Section WritingFacts.
Context `{Codec}.
Abbreviation h5py_File := (gmap string (gmap string Node)).
Implicit Types (parent : h5py_File) (children : gmap string Node).

Lemma ensure_group_lookup group_name parent :
  ensure_group group_name parent !! group_name
  = Some (default ∅ (parent !! group_name)).
Proof.
  unfold ensure_group.
  destruct (parent !! group_name) eqn:Hg; simpl; [done|].
  by rewrite lookup_insert_eq.
Qed.

Lemma ensure_group_idemp group_name parent f :
  ensure_group group_name (alter f group_name (ensure_group group_name parent))
  = alter f group_name (ensure_group group_name parent).
Proof.
  unfold ensure_group at 1.
  by rewrite lookup_alter_eq, ensure_group_lookup.
Qed.

Lemma write_each props handle parent :
  for_each props (λ _ prop, Member_to_hdf5 (PropertyMember prop) handle) () parent
  = (alter (write_properties props) handle parent, inr ()).
Proof.
  revert parent. induction props as [|prop props IH]; intros parent; simpl.
  - run_eff. f_equal. symmetry. by apply alter_id.
  - unfold Member_to_hdf5 at 1. run_eff. rewrite IH. f_equal.
    by rewrite alter_alter_eq.
Qed.

Lemma GroupedProperty_to_hdf5_run (self : GroupedProperty Property) parent :
  GroupedProperty_to_hdf5 self parent
  = (alter (write_properties (GroupedProperty_iter self)) (name self)
           (ensure_group (name self) parent), inr ()).
Proof.
  unfold GroupedProperty_to_hdf5, require_group. run_eff. apply write_each.
Qed.

Lemma to_hdf5_run self parent :
  to_hdf5 self parent
  = let written := (GroupedProperty_to_hdf5 (group self) parent).1 in
    match molecule self with
    | None => (written, inl (AttributeError "to_hdf5"))
    | Some m =>
        (alter (insert "Molecule" (encode (MoleculeMember m)))
               (name (group self)) written, inr ())
    end.
Proof.
  unfold to_hdf5. unfold mbind at 1, Eff_bind, eff_bind.
  rewrite GroupedProperty_to_hdf5_run. unfold require_group. run_eff.
  rewrite ensure_group_idemp. by destruct (molecule self).
Qed.

(** C10: [to_hdf5] succeeds exactly when the molecule is set.  Without a
    molecule it raises where the molecule would be written, the properties
    of the group being stored by then. *)
Theorem to_hdf5_succeeds_iff_molecule_set self parent :
  (to_hdf5 self parent).2
  = match molecule self with
    | Some _ => inr ()
    | None => inl (AttributeError "to_hdf5")
    end
  ∧ (GroupedProperty_to_hdf5 (group self) parent).2 = inr ()
  ∧ (molecule self = None →
     (to_hdf5 self parent).1 = (GroupedProperty_to_hdf5 (group self) parent).1).
Proof.
  rewrite to_hdf5_run, GroupedProperty_to_hdf5_run. simpl. split_and!.
  - by destruct (molecule self).
  - done.
  - by intros ->.
Qed.
End WritingFacts.

(** ** Groups keep their invariant *)

Section GroupFacts.
Context `{Carriers} {T : Type} `{Named T}.
Implicit Types (self : GroupedProperty T) (prop : T) (d : dict T).
Implicit Types (props : list T).

Lemma dict_set_Forall (P : string * T → Prop) k prop d :
  P (k, prop) → Forall P d → Forall P (dict_set k prop d).
Proof.
  intros Hnew. induction 1 as [|[k0 p0] d Hhead Htail IH]; simpl.
  - by repeat constructor.
  - destruct (decide (k = k0)); constructor; auto.
Qed.

Lemma add_property_wf self prop :
  group_wf self → group_wf (GroupedProperty_add_property self prop).
Proof.
  intros [Hwf Hkeyed]. split; simpl.
  - by apply dict_set_wf.
  - by apply dict_set_Forall.
Qed.

Lemma fold_add_property_wf props self :
  group_wf self → group_wf (fold_left GroupedProperty_add_property props self).
Proof.
  revert self. induction props as [|prop props IH]; intros self Hwf; simpl.
  - done.
  - by apply IH, add_property_wf.
Qed.

(** A well-formed dictionary of members is its members, each under its
    name. *)
Lemma keyed_named d : keyed d → d = named <$> dict_values d.
Proof.
  induction 1 as [|[k prop] d Hk Hkeyed IH]; [done|].
  simpl in Hk. subst k.
  change (dict_values ((name_of prop, prop) :: d)) with (prop :: dict_values d).
  by rewrite fmap_cons, <-IH.
Qed.

Lemma dict_keys_named props : dict_keys (named <$> props) = name_of <$> props.
Proof. unfold dict_keys. by rewrite <-list_fmap_compose. Qed.

Lemma dict_values_named props : dict_values (named <$> props) = props.
Proof.
  unfold dict_values. rewrite <-list_fmap_compose. apply list_fmap_id.
Qed.

Lemma keyed_fmap_named props : keyed (named <$> props).
Proof. apply Forall_fmap, Forall_forall. by intros prop _. Qed.

(** Members with fresh, distinct names are appended in the order in which
    they are added. *)
Lemma fold_add_property_fresh props self :
  NoDup (name_of <$> props) →
  (∀ prop, prop ∈ props → name_of prop ∉ dict_keys (properties self)) →
  fold_left GroupedProperty_add_property props self
  = mkGroup (name self) (properties self ++ (named <$> props)).
Proof.
  revert self. induction props as [|prop props IH]; intros self Hnd Hfresh.
  - simpl. rewrite app_nil_r. by destruct self.
  - rewrite fmap_cons in Hnd. apply NoDup_cons in Hnd as [Hprop Hnd].
    simpl. rewrite IH; [|done|].
    + simpl. rewrite dict_set_fresh.
      * by rewrite <-app_assoc.
      * apply Hfresh, elem_of_cons. by left.
    + intros p Hp. simpl. rewrite dict_keys_set_new.
      * rewrite elem_of_app, list_elem_of_singleton. intros [Hin|Heq].
        -- revert Hin. apply Hfresh, elem_of_cons. by right.
        -- apply Hprop. rewrite <-Heq. by apply list_elem_of_fmap_2.
      * apply Hfresh, elem_of_cons. by left.
Qed.
End GroupFacts.

(** ** The persistence adapter: reading *)

Section ReadingFacts.
Context `{Codec}.
Implicit Types (members : list Member) (d : dict Member).
Implicit Types (ret : ElectronicStructureDriverResult).

Lemma load_members_wf children (self loaded : GroupedProperty Member) :
  load_members children self = inr loaded → group_wf self → group_wf loaded.
Proof.
  revert self. induction children as [|[child node] children IH]; simpl.
  - by intros self [= ->].
  - intros self Hload Hwf. destruct (decode node) as [prop|]; [|done].
    eapply IH; [done|]. by apply add_property_wf.
Qed.

Lemma GroupedProperty_from_hdf5_wf h5py_group loaded :
  GroupedProperty_from_hdf5 h5py_group = inr loaded → group_wf loaded.
Proof.
  intros Hload. eapply load_members_wf; [done|].
  split; [apply NoDup_nil_2 | apply Forall_nil_2].
Qed.

(** The loop over the restored members never raises: the properties are
    added in order and the last molecule met, if any, is the molecule. *)
Lemma for_each_route members ret log :
  for_each members route ret log
  = (log ++ (route_event <$> members),
     inr (mkResult
            (fold_left GroupedProperty_add_property
                       (members_properties members) (group ret))
            (match last (members_molecules members) with
             | Some m => Some m
             | None => molecule ret
             end))).
Proof.
  revert ret log. induction members as [|[m|p] members IH]; intros ret log.
  - simpl. run_eff. rewrite app_nil_r. by destruct ret.
  - simpl. unfold set_molecule, emit. run_eff. rewrite IH. simpl.
    rewrite <-app_assoc. simpl. do 3 f_equal.
    change (members_molecules (MoleculeMember m :: members))
      with (m :: members_molecules members).
    rewrite last_cons. by destruct (last (members_molecules members)).
  - simpl. unfold add_property, emit. run_eff. rewrite IH. simpl.
    by rewrite <-app_assoc.
Qed.

Lemma molecule_assignments_app log log' :
  molecule_assignments (log ++ log')
  = molecule_assignments log + molecule_assignments log'.
Proof.
  unfold molecule_assignments. by rewrite List.filter_app, length_app.
Qed.

Lemma molecule_assignments_route members :
  molecule_assignments (route_event <$> members)
  = length (members_molecules members).
Proof.
  unfold molecule_assignments.
  induction members as [|[m|p] members IH]; simpl; [done| |done].
  change (members_molecules (MoleculeMember m :: members))
    with (m :: members_molecules members).
  simpl. by rewrite <-IH.
Qed.

(** All molecules go by the same name, so a group holds at most one. *)
Lemma no_molecule_without_name d :
  keyed d → "Molecule" ∉ dict_keys d → members_molecules (dict_values d) = [].
Proof.
  induction 1 as [|[k prop] d Hk Hkeyed IH]; [done|].
  rewrite dict_keys_cons, not_elem_of_cons. intros [Hne Hout]. simpl in Hk.
  destruct prop as [m|p]; [by subst k|]. by apply IH.
Qed.

Lemma molecules_at_most_one d :
  dict_wf d → keyed d → (length (members_molecules (dict_values d)) ≤ 1)%nat.
Proof.
  intros Hwf Hkeyed. revert Hwf.
  induction Hkeyed as [|[k prop] d Hk Hkeyed IH]; [simpl; lia|].
  intros [Hout Hwf]%dict_wf_cons. simpl in Hk. destruct prop as [m|p].
  - change (members_molecules (dict_values ((k, MoleculeMember m) :: d)))
      with (m :: members_molecules (dict_values d)).
    subst k. rewrite no_molecule_without_name by done. simpl. lia.
  - by apply IH.
Qed.

Lemma members_properties_names members (x : string) :
  x ∈ name_of <$> members_properties members → x ∈ name_of <$> members.
Proof.
  intros (p & -> & Hp)%list_elem_of_fmap.
  apply list_elem_of_omap in Hp as ([m|p'] & Hin & Heq); [done|].
  injection Heq as ->. by apply (list_elem_of_fmap_2 name_of) in Hin.
Qed.

Lemma members_properties_NoDup members :
  NoDup (name_of <$> members) → NoDup (name_of <$> members_properties members).
Proof.
  induction members as [|[m|p] members IH]; [done | |].
  - rewrite fmap_cons. intros [_ Hnd]%NoDup_cons. by apply IH.
  - rewrite fmap_cons. intros [Hout Hnd]%NoDup_cons.
    change (members_properties (PropertyMember p :: members))
      with (p :: members_properties members).
    rewrite fmap_cons. apply NoDup_cons. split; [|by apply IH].
    intros Hin. by apply Hout, members_properties_names.
Qed.

(** What [from_hdf5] returns once the group has been restored. *)
Lemma from_hdf5_run h5py_group loaded log :
  GroupedProperty_from_hdf5 h5py_group = inr loaded →
  from_hdf5 h5py_group log
  = (log ++ (route_event <$> GroupedProperty_iter loaded),
     inr (mkResult
            (mkGroup "ElectronicStructureDriverResult"
               (named <$> members_properties (GroupedProperty_iter loaded)))
            (last (members_molecules (GroupedProperty_iter loaded))))).
Proof.
  intros Hload. unfold from_hdf5. rewrite Hload. unfold lift. run_eff.
  rewrite for_each_route. simpl. do 3 f_equal.
  - rewrite fold_add_property_fresh; [done| |intros p _; apply not_elem_of_nil].
    apply members_properties_NoDup.
    destruct (GroupedProperty_from_hdf5_wf _ _ Hload) as [Hwf Hkeyed].
    unfold GroupedProperty_iter. rewrite <-dict_keys_named.
    by rewrite <-keyed_named.
  - by destruct (last _).
Qed.
End ReadingFacts.

Section MoleculeField.
Context `{Carriers} `{!Delegates} `{!Codec}.
Implicit Types (members : list Member).

Lemma members_without_molecule members :
  (∀ prop, prop ∈ members → is_Molecule prop = false) →
  members_molecules members = []
  ∧ PropertyMember <$> members_properties members = members.
Proof.
  induction members as [|[m|p] members IH]; intros Hnone; [done | |].
  - by specialize (Hnone (MoleculeMember m) (list_elem_of_here _ _)).
  - destruct IH as [IHm IHp].
    { intros prop Hin. apply Hnone, elem_of_cons. by right. }
    split; [done|].
    change (members_properties (PropertyMember p :: members))
      with (p :: members_properties members).
    by rewrite fmap_cons, IHp.
Qed.

(** C8: once the group is restored, [from_hdf5] returns an instance; its
    properties are the restored entries that are not molecules, in order;
    and when no entry is a molecule, the molecule stays [None] and every
    entry is among the properties. *)
Theorem from_hdf5_without_molecule h5py_group loaded :
  GroupedProperty_from_hdf5 h5py_group = inr loaded →
  ∃ log ret,
    from_hdf5 h5py_group [] = (log, inr ret)
    ∧ GroupedProperty_iter (group ret)
      = members_properties (GroupedProperty_iter loaded)
    ∧ ((∀ prop, prop ∈ GroupedProperty_iter loaded → is_Molecule prop = false) →
       molecule ret = None
       ∧ PropertyMember <$> GroupedProperty_iter (group ret)
         = GroupedProperty_iter loaded).
Proof.
  intros Hload. do 2 eexists. split; [by apply from_hdf5_run|]. simpl.
  assert (∀ props : list Property,
            GroupedProperty_iter
              (mkGroup "ElectronicStructureDriverResult" (named <$> props))
            = props) as Hiter.
  { intros props. unfold GroupedProperty_iter. simpl. apply dict_values_named. }
  rewrite Hiter. split; [done|]. intros Hnone.
  apply members_without_molecule in Hnone as [-> ->]. done.
Qed.

(** C7, as the code has it: the legacy conversion assigns the molecule
    once; [from_hdf5] assigns it once for every molecule among the restored
    entries, which is at most once and not at all when there is none; and
    [add_property] leaves it as it is. *)
Theorem molecule_assigned_at_most_once :
  (∀ qmol, ∃ log ret,
     from_legacy_driver_result (LegacyQMolecule qmol) [] = (log, inr ret)
     ∧ molecule_assignments log = 1)
  ∧ (∀ h5py_group loaded,
       GroupedProperty_from_hdf5 h5py_group = inr loaded →
       ∃ log ret,
         from_hdf5 h5py_group [] = (log, inr ret)
         ∧ molecule_assignments log
           = length (members_molecules (GroupedProperty_iter loaded))
         ∧ (molecule_assignments log ≤ 1)%nat
         ∧ (molecule_assignments log = 0 → molecule ret = None))
  ∧ (∀ ret prop log, ∃ log' ret',
       add_property ret prop log = (log', inr ret')
       ∧ molecule ret' = molecule ret
       ∧ molecule_assignments log' = molecule_assignments log).
Proof.
  split_and!.
  - intros qmol. destruct (from_legacy_driver_result_log qmol []) as [ret Hret].
    do 2 eexists. split; [exact Hret|]. apply legacy_log_assignments.
  - intros h5py_group loaded Hload. do 2 eexists.
    split; [by apply from_hdf5_run|]. simpl.
    rewrite molecule_assignments_route.
    destruct (GroupedProperty_from_hdf5_wf _ _ Hload) as [Hwf Hkeyed].
    split_and!; [done | by apply molecules_at_most_one |].
    intros Hnone%nil_length_inv. by rewrite Hnone.
  - intros ret prop log. do 2 eexists. unfold add_property, emit. run_eff.
    split_and!; [reflexivity | done |].
    rewrite molecule_assignments_app.
    change (molecule_assignments [PropertyAdded (name_of prop)]) with 0. lia.
Qed.
End MoleculeField.

(** ** The round trip through storage *)

Section RoundTrip.
Context `{Codec}.
Hypothesis decode_encode : ∀ member, decode (encode member) = Some member.
Implicit Types (members : list Member) (d : dict Property).
Implicit Types (children : gmap string Node).

Lemma encode_inj member member' :
  encode member = encode member' → member = member'.
Proof.
  intros Heq. apply (f_equal decode) in Heq.
  rewrite !decode_encode in Heq. by injection Heq.
Qed.

Lemma write_properties_lookup d children k :
  dict_wf d → keyed d →
  write_properties (dict_values d) children !! k
  = match dict_get k d with
    | Some p => Some (encode (PropertyMember p))
    | None => children !! k
    end.
Proof.
  intros Hwf Hkeyed. revert children Hwf.
  induction Hkeyed as [|[k0 p0] d Hk0 Hkeyed IH]; intros children; [done|].
  intros [Hout Hwf]%dict_wf_cons. simpl in Hk0. subst k0.
  change (write_properties (dict_values ((name_of p0, p0) :: d)) children)
    with (write_properties (dict_values d)
            (<[name_of p0 := encode (PropertyMember p0)]> children)).
  rewrite IH by done. simpl. destruct (decide (k = name_of p0)) as [->|Hne].
  - apply dict_get_None in Hout. by rewrite Hout, lookup_insert_eq.
  - by rewrite lookup_insert_ne.
Qed.

Lemma load_members_stored members (self : GroupedProperty Member) :
  load_members (stored <$> members) self
  = inr (fold_left GroupedProperty_add_property members self).
Proof.
  revert self. induction members as [|member members IH]; intros self; simpl.
  - done.
  - by rewrite decode_encode, IH.
Qed.

Lemma stored_members (items : list (string * Node)) :
  Forall (λ item, ∃ member, item = stored member) items →
  ∃ members, items = stored <$> members.
Proof.
  induction 1 as [|item items [member ->] _ [members ->]].
  - by exists [].
  - by exists (member :: members).
Qed.

(** Restoring a group in which every child is a stored member gives back
    these members, each under its name. *)
Lemma GroupedProperty_from_hdf5_stored group_name children :
  (∀ k node, children !! k = Some node → ∃ member, (k, node) = stored member) →
  ∃ members,
    GroupedProperty_from_hdf5 (mkH5 group_name children)
    = inr (mkGroup group_name (named <$> members))
    ∧ ∀ member, member ∈ members
                ↔ children !! name_of member = Some (encode member).
Proof.
  intros Hstored.
  destruct (stored_members (map_to_list children)) as [members Hitems].
  { apply Forall_forall. intros [k node] Hin%elem_of_map_to_list. eauto. }
  exists members. split.
  - unfold GroupedProperty_from_hdf5. simpl.
    rewrite Hitems, load_members_stored.
    rewrite fold_add_property_fresh; [done| |intros p _; apply not_elem_of_nil].
    pose proof (NoDup_fst_map_to_list children) as Hnd.
    rewrite Hitems, <-list_fmap_compose in Hnd. done.
  - intros member. rewrite <-elem_of_map_to_list, Hitems.
    split; [apply (list_elem_of_fmap_2 stored)|].
    intros (member' & Heq & Hin)%list_elem_of_fmap.
    injection Heq as _ Heq. by apply encode_inj in Heq as ->.
Qed.

Lemma dict_get_Permutation {V} (d d' : dict V) k :
  dict_wf d → dict_wf d' → d ≡ₚ d' → dict_get k d = dict_get k d'.
Proof.
  intros Hwf Hwf' Hperm. destruct (dict_get k d) as [v|] eqn:Hget.
  - symmetry. apply dict_get_elem; [done|].
    rewrite <-Hperm. by apply dict_get_Some_elem.
  - symmetry. apply dict_get_None. apply dict_get_None in Hget.
    unfold dict_keys in *. by rewrite <-Hperm.
Qed.

Lemma hdf5_round_trip_steps self m parent :
  group_wf (group self) →
  molecule self = Some m →
  "Molecule" ∉ dict_keys (properties (group self)) →
  parent !! name (group self) = None →
  ∃ written children log ret,
    to_hdf5 self parent = (written, inr ())
    ∧ written !! name (group self) = Some children
    ∧ from_hdf5 (mkH5 (name (group self)) children) [] = (log, inr ret)
    ∧ molecule ret = molecule self
    ∧ properties (group ret) ≡ₚ properties (group self)
    ∧ ∀ prop, GroupedProperty_get_property (group ret) prop
              = GroupedProperty_get_property (group self) prop.
Proof.
  intros [Hwf Hkeyed] Hm Hfree Hfresh.
  set (d := properties (group self)) in *.
  set (children := <["Molecule" := encode (MoleculeMember m)]>
                     (write_properties (dict_values d) ∅)).
  assert (∀ k, children !! k
               = if decide (k = "Molecule")
                 then Some (encode (MoleculeMember m))
                 else encode ∘ PropertyMember <$> dict_get k d) as Hchildren.
  { intros k. unfold children. destruct (decide (k = "Molecule")) as [->|Hne].
    - by rewrite lookup_insert_eq.
    - rewrite lookup_insert_ne, write_properties_lookup by done.
      by destruct (dict_get k d). }
  destruct (GroupedProperty_from_hdf5_stored (name (group self)) children)
    as (members & Hload & Hmembers).
  { intros k node. rewrite Hchildren. destruct (decide (k = "Molecule")) as [->|Hne].
    - intros [= <-]. by exists (MoleculeMember m).
    - destruct (dict_get k d) as [p|] eqn:Hget; [|done]. intros [= <-].
      exists (PropertyMember p). unfold stored. simpl. f_equal.
      apply dict_get_Some_elem in Hget.
      by apply (proj1 (Forall_forall _ _) Hkeyed) in Hget. }
  assert (∀ p, PropertyMember p ∈ members ↔ named p ∈ d) as Hprops.
  { intros p. rewrite Hmembers, Hchildren.
    change (name_of (PropertyMember p)) with (name_of p).
    destruct (decide (name_of p = "Molecule")) as [Heq|Hne].
    - split.
      + intros [= Henc]. by apply encode_inj in Henc.
      + intros Hin%dict_elem_key. simpl in Hin. by rewrite Heq in Hin.
    - split.
      + destruct (dict_get (name_of p) d) as [p'|] eqn:Hget; [|done].
        intros [= Henc]. apply encode_inj in Henc. injection Henc as ->.
        by apply dict_get_Some_elem.
      + intros Hin. by rewrite (dict_get_elem _ _ _ Hwf Hin). }
  assert (∀ m', MoleculeMember m' ∈ members ↔ m' = m) as Hmols.
  { intros m'. rewrite Hmembers, Hchildren. simpl.
    split; [intros [= Henc] | by intros ->].
    apply encode_inj in Henc. by injection Henc. }
  assert (properties (group self) ≡ₚ named <$> members_properties members)
    as Hperm.
  { apply NoDup_Permutation.
    - by apply (NoDup_fmap_1 fst).
    - apply (NoDup_fmap_1 fst). fold (dict_keys (named <$> members_properties members)).
      rewrite dict_keys_named. apply members_properties_NoDup.
      pose proof (GroupedProperty_from_hdf5_wf _ _ Hload) as [Hnd _].
      simpl in Hnd. unfold dict_wf in Hnd. by rewrite dict_keys_named in Hnd.
    - intros [k p]. rewrite list_elem_of_fmap. split.
      + intros Hin. exists p. split.
        * unfold named. f_equal.
          by apply (proj1 (Forall_forall _ _) Hkeyed) in Hin.
        * apply list_elem_of_omap. exists (PropertyMember p). split; [|done].
          apply Hprops. unfold named.
          apply (proj1 (Forall_forall _ _) Hkeyed) in Hin as Hk.
          simpl in Hk. by rewrite <-Hk.
      + intros (p' & -> & Hin). apply list_elem_of_omap in Hin as (member & Hin & Heq).
        destruct member as [|p'']; [done|]. injection Heq as ->.
        by apply Hprops. }
  eexists _, children, _, _. split_and!.
  - rewrite to_hdf5_run, GroupedProperty_to_hdf5_run, Hm. simpl. reflexivity.
  - rewrite lookup_alter_eq, lookup_alter_eq, ensure_group_lookup, Hfresh. done.
  - by apply from_hdf5_run.
  - simpl. rewrite Hm. unfold GroupedProperty_iter. simpl.
    rewrite dict_values_named.
    destruct (last (members_molecules members)) as [m'|] eqn:Hlast.
    + apply last_Some_elem_of, list_elem_of_omap in Hlast as ([m''|p] & Hin & Heq);
        [|done]. injection Heq as ->. by apply Hmols in Hin as ->.
    + apply last_None in Hlast.
      assert (m ∈ members_molecules members) as Hin.
      { apply list_elem_of_omap. exists (MoleculeMember m). split; [|done].
        by apply Hmols. }
      rewrite Hlast in Hin. by apply elem_of_nil in Hin.
  - simpl. unfold GroupedProperty_iter. simpl. by rewrite dict_values_named.
  - intros prop. unfold GroupedProperty_get_property. simpl.
    unfold GroupedProperty_iter. simpl. rewrite dict_values_named.
    apply dict_get_Permutation; [| done | done].
    unfold dict_wf. rewrite dict_keys_named. apply members_properties_NoDup.
    pose proof (GroupedProperty_from_hdf5_wf _ _ Hload) as [Hnd _].
    simpl in Hnd. unfold dict_wf in Hnd. by rewrite dict_keys_named in Hnd.
Qed.

(** C1, as the code has it: an instance with a molecule and no property
    named like the molecule's group, written by [to_hdf5] into a parent
    that has no group of its name yet and read back by [from_hdf5] from
    the group written, comes back with the same molecule and the same
    properties under the same names, whenever the members' own
    serialization loses nothing. *)
Theorem hdf5_round_trip self m parent :
  group_wf (group self) →
  molecule self = Some m →
  "Molecule" ∉ dict_keys (properties (group self)) →
  parent !! name (group self) = None →
  ∃ ret,
    round_trip self parent = inr ret
    ∧ molecule ret = molecule self
    ∧ properties (group ret) ≡ₚ properties (group self)
    ∧ ∀ prop, GroupedProperty_get_property (group ret) prop
              = GroupedProperty_get_property (group self) prop.
Proof.
  intros Hwf Hm Hfree Hfresh.
  destruct (hdf5_round_trip_steps self m parent Hwf Hm Hfree Hfresh)
    as (written & children & log & ret & Hto & Hgroup & Hfrom & Hret).
  exists ret. split; [|done].
  unfold round_trip. by rewrite Hto, Hgroup, Hfrom.
Qed.
End RoundTrip.

(** ** Every instance the class builds is well formed *)

Section Construction.
Context `{Carriers} `{!Delegates} `{!Codec}.

Lemma __init___wf : group_wf (group __init__).
Proof. split; [apply NoDup_nil_2 | apply Forall_nil_2]. Qed.

Lemma add_property_keeps_wf ret prop log :
  group_wf (group ret) →
  ∃ log' ret', add_property ret prop log = (log', inr ret')
               ∧ group_wf (group ret').
Proof.
  intros Hwf. do 2 eexists. unfold add_property, emit. run_eff.
  split; [reflexivity|]. by apply add_property_wf.
Qed.

Lemma from_hdf5_wf h5py_group log log' ret :
  from_hdf5 h5py_group log = (log', inr ret) → group_wf (group ret).
Proof.
  unfold from_hdf5.
  destruct (GroupedProperty_from_hdf5 h5py_group) as [e|loaded] eqn:Hload;
    unfold lift; run_eff; [done|].
  rewrite for_each_route. intros [= _ <-]. simpl.
  apply fold_add_property_wf, __init___wf.
Qed.

Lemma from_legacy_driver_result_wf qmol :
  ∃ log ret,
    from_legacy_driver_result (LegacyQMolecule qmol) [] = (log, inr ret)
    ∧ group_wf (group ret).
Proof.
  do 2 eexists. split; [apply from_legacy_driver_result_exact|].
  unfold legacy_properties. destruct (has_dipole_integrals qmol); split.
  - unfold dict_wf. simpl. compute_done.
  - unfold keyed. simpl. by repeat constructor.
  - unfold dict_wf. simpl. compute_done.
  - unfold keyed. simpl. by repeat constructor.
Qed.
End Construction.

(** ** The statements at work on concrete instances *)

Section Instances.
Import Examples.
#[local] Existing Instances carriers delegates codec.

(** The round trip of [complete] through an empty parent. *)
Lemma hdf5_round_trip_witness :
  group_wf (group complete)
  ∧ molecule complete = Some h2_molecule
  ∧ ("Molecule" ∉ dict_keys (properties (group complete)))
  ∧ (∅ : gmap string (gmap string Node)) !! name (group complete) = None
  ∧ ∃ ret,
      round_trip complete ∅ = inr ret
      ∧ molecule ret = molecule complete
      ∧ properties (group ret) ≡ₚ properties (group complete)
      ∧ ∀ prop, GroupedProperty_get_property (group ret) prop
                = GroupedProperty_get_property (group complete) prop.
Proof.
  assert (group_wf (group complete)) as Hwf.
  { split; [unfold dict_wf; compute_done | by repeat constructor]. }
  assert ("Molecule" ∉ dict_keys (properties (group complete))) as Hfree.
  { compute_done. }
  split_and!; [exact Hwf | reflexivity | exact Hfree | reflexivity |].
  exact (hdf5_round_trip (λ member, eq_refl) complete h2_molecule ∅
           Hwf eq_refl Hfree eq_refl).
Defined.

(** An instance without a molecule cannot be written; a property named
    like the molecule's group is lost on the way; and a group already in
    the parent leaks its members into the instance read back. *)
Lemma hdf5_round_trip_counterexample :
  round_trip incomplete ∅ = inl (AttributeError "to_hdf5")
  ∧ (∃ ret, round_trip clashing ∅ = inr ret
            ∧ GroupedProperty_get_property (group clashing) "Molecule"
              = Some namesake
            ∧ GroupedProperty_get_property (group ret) "Molecule" = None)
  ∧ (∃ ret, round_trip complete used_parent = inr ret
            ∧ GroupedProperty_get_property (group complete) "Shadow" = None
            ∧ GroupedProperty_get_property (group ret) "Shadow" = Some shadow).
Proof.
  split_and!.
  - by vm_compute.
  - eexists. split_and!; by vm_compute.
  - eexists. split_and!; by vm_compute.
Qed.

(** A vibrational legacy result is turned away at once. *)
Lemma from_legacy_driver_result_rejects_witness :
  (∀ qmol, LegacyWatsonHamiltonian () ≠ LegacyQMolecule qmol)
  ∧ from_legacy_driver_result (LegacyWatsonHamiltonian ()) []
    = ([], inl (QiskitNatureError "invalid input type")).
Proof.
  assert (∀ qmol, LegacyWatsonHamiltonian () ≠ LegacyQMolecule qmol) as Hother.
  { intros qmol. discriminate. }
  split; [exact Hother|].
  exact (from_legacy_driver_result_rejects (LegacyWatsonHamiltonian ()) [] Hother).
Defined.

(** [shadow] comes after [energy] and overwrites its key. *)
Lemma second_q_ops_last_write_wins_witness :
  ∃ ops,
    second_q_ops (mkSettings true) (with_properties [energy; shadow; number] None)
    = OpsDict ops
    ∧ dict_get "ElectronicEnergy" ops = Some "S".
Proof.
  apply (second_q_ops_last_write_wins
           (with_properties [energy; shadow; number] None)
           [energy] shadow [number]
           shadow_ops "ElectronicEnergy" "S").
  - reflexivity.
  - reflexivity.
  - unfold dict_wf. compute_done.
  - reflexivity.
  - intros later sq' ->%list_elem_of_singleton [= <-]. compute_done.
Defined.

(** A stored group that holds a property and no molecule. *)
Lemma from_hdf5_without_molecule_witness :
  ∃ log ret,
    from_hdf5 molecule_free [] = (log, inr ret)
    ∧ GroupedProperty_iter (group ret) = members_properties [PropertyMember energy]
    ∧ ((∀ prop, prop ∈ [PropertyMember energy] → is_Molecule prop = false) →
       molecule ret = None
       ∧ PropertyMember <$> GroupedProperty_iter (group ret)
         = [PropertyMember energy]).
Proof.
  apply (from_hdf5_without_molecule molecule_free
           (mkGroup "ElectronicStructureDriverResult"
                    [("ElectronicEnergy", PropertyMember energy)])).
  by vm_compute.
Defined.

(** A [QMolecule] without dipole integrals is converted into an instance
    of six members, four of them physical properties: the dipole moment is
    not among them. *)
Lemma from_legacy_driver_result_members_counterexample :
  ∃ log ret,
    from_legacy_driver_result (LegacyQMolecule h2_without_dipole) []
    = (log, inr ret)
    ∧ length (GroupedProperty_iter (group ret)) = 6
    ∧ get_property ret ElectronicDipoleMoment = None.
Proof. do 2 eexists. split_and!; by vm_compute. Qed.

(** Reading a stored group without a molecule assigns the field not
    once but never, and the instance is returned all the same. *)
Lemma molecule_set_exactly_once_counterexample :
  ∃ log ret,
    from_hdf5 molecule_free [] = (log, inr ret)
    ∧ molecule_assignments log = 0
    ∧ molecule ret = None.
Proof. do 2 eexists. split_and!; by vm_compute. Qed.
End Instances.

(** ** More on the operator collector *)

Section OperatorCollectorMore.
Context `{Carriers}.
Implicit Types (self : ElectronicStructureDriverResult) (prop : Property).
Implicit Types (props : list Property) (ops : dict FermionicOp).

Lemma get_property_member self cls prop :
  get_property self cls = Some prop → prop ∈ GroupedProperty_iter (group self).
Proof.
  intros Hget%dict_get_Some_elem.
  by apply (list_elem_of_fmap_2 snd) in Hget.
Qed.

Lemma fold_update_with_idle props ops :
  (∀ prop, prop ∈ props → as_SecondQuantizedProperty prop = None) →
  fold_left update_with props ops = ops.
Proof.
  revert ops. induction props as [|prop props IH]; intros ops Hidle; [done|].
  simpl. unfold update_with at 2.
  rewrite (Hidle prop) by (apply elem_of_cons; by left).
  apply IH. intros p Hp. apply Hidle, elem_of_cons. by right.
Qed.

(** X1: a group without any SecondQuantizedProperty member, the empty group
    among them, yields the empty list with the flag off and the empty
    mapping with the flag on. *)
Theorem second_q_ops_without_operators self :
  (∀ prop, prop ∈ GroupedProperty_iter (group self) →
           as_SecondQuantizedProperty prop = None) →
  second_q_ops (mkSettings false) self = OpsList []
  ∧ second_q_ops (mkSettings true) self = OpsDict [].
Proof.
  intros Hidle. unfold second_q_ops. cbn [negb dict_aux_operators]. split.
  - rewrite fold_extend_with. f_equal. simpl.
    assert (∀ cls, contribution self cls = []) as Hnone.
    { intros cls. unfold contribution.
      destruct (get_property self cls) as [prop|] eqn:Hget; [|done].
      simpl. by rewrite (Hidle prop) by by eapply get_property_member. }
    by rewrite !Hnone.
  - by rewrite fold_update_with_idle.
Qed.

Lemma fold_update_with_keys_iff props ops key :
  key ∈ dict_keys (fold_left update_with props ops)
  ↔ key ∈ dict_keys ops
    ∨ ∃ prop sq, prop ∈ props ∧ as_SecondQuantizedProperty prop = Some sq
                 ∧ key ∈ dict_keys (ops_dict sq).
Proof.
  revert ops. induction props as [|prop props IH]; intros ops; simpl.
  - split; [by left|]. intros [?|(p & sq & Hin & _)]; [done|].
    by apply elem_of_nil in Hin.
  - rewrite IH. unfold update_with at 1.
    destruct (as_SecondQuantizedProperty prop) as [sq|] eqn:Hsq.
    + rewrite dict_keys_update. split.
      * intros [[Hnew|Hold]|(p & sq' & Hin & Hp & Hkey)]; [|by left|].
        -- right. exists prop, sq. split_and!; [apply elem_of_cons; by left|done..].
        -- right. exists p, sq'. split_and!; [apply elem_of_cons; by right|done..].
      * intros [Hold|(p & sq' & [->|Hin]%elem_of_cons & Hp & Hkey)].
        -- left. by right.
        -- left. left. rewrite Hsq in Hp. by injection Hp as ->.
        -- right. by exists p, sq'.
    + split.
      * intros [Hold|(p & sq' & Hin & Hp & Hkey)]; [by left|].
        right. exists p, sq'. split_and!; [apply elem_of_cons; by right|done..].
      * intros [Hold|(p & sq' & [->|Hin]%elem_of_cons & Hp & Hkey)]; [by left| |].
        -- by rewrite Hsq in Hp.
        -- right. by exists p, sq'.
Qed.

(** X2: with the flag on, the keys of the mapping returned are the keys
    that the SecondQuantizedProperty members of the group offer, and no
    others. *)
Theorem second_q_ops_keys self key :
  ∃ ops, second_q_ops (mkSettings true) self = OpsDict ops
         ∧ (key ∈ dict_keys ops
            ↔ ∃ prop sq, prop ∈ GroupedProperty_iter (group self)
                         ∧ as_SecondQuantizedProperty prop = Some sq
                         ∧ key ∈ dict_keys (ops_dict sq)).
Proof.
  eexists. split; [reflexivity|]. rewrite fold_update_with_keys_iff.
  split; [|by right]. intros [Hin|?]; [|done]. by apply elem_of_nil in Hin.
Qed.

Lemma dict_get_update_Some {V} (d other : dict V) k v :
  dict_get k (dict_update d other) = Some v →
  (k, v) ∈ other ∨ dict_get k d = Some v.
Proof.
  unfold dict_update. revert d.
  induction other as [|[k0 v0] other IH]; intros d; simpl; [by right|].
  intros [Hin|Hget]%IH.
  - left. apply elem_of_cons. by right.
  - rewrite dict_get_set in Hget. destruct (decide (k = k0)) as [->|]; [|by right].
    injection Hget as ->. left. apply elem_of_cons. by left.
Qed.

Lemma fold_update_with_Some props ops key op :
  dict_get key (fold_left update_with props ops) = Some op →
  dict_get key ops = Some op
  ∨ ∃ prop sq, prop ∈ props ∧ as_SecondQuantizedProperty prop = Some sq
               ∧ (key, op) ∈ ops_dict sq.
Proof.
  revert ops. induction props as [|prop props IH]; intros ops; simpl; [by left|].
  intros [Hget|(p & sq & Hin & Hp & Hitem)]%IH.
  - unfold update_with in Hget.
    destruct (as_SecondQuantizedProperty prop) as [sq|] eqn:Hsq; [|by left].
    apply dict_get_update_Some in Hget as [Hitem|Hold]; [|by left].
    right. exists prop, sq. split_and!; [apply elem_of_cons; by left|done..].
  - right. exists p, sq. split_and!; [apply elem_of_cons; by right|done..].
Qed.

(** X3: with the flag on, every operator in the mapping returned is the one
    that some SecondQuantizedProperty member of the group gives to that
    key: the collector invents no entry. *)
Theorem second_q_ops_values self key op :
  ∃ ops, second_q_ops (mkSettings true) self = OpsDict ops
         ∧ (dict_get key ops = Some op →
            ∃ prop sq, prop ∈ GroupedProperty_iter (group self)
                       ∧ as_SecondQuantizedProperty prop = Some sq
                       ∧ (key, op) ∈ ops_dict sq).
Proof.
  eexists. split; [reflexivity|].
  intros [Hget|?]%fold_update_with_Some; done.
Qed.

(** X4: adding a property under a name that is none of the five class
    names does not change what [second_q_ops] returns with the flag off. *)
Theorem second_q_ops_list_ignores_other_names self prop log :
  (∀ cls, name_of prop ≠ class_name cls) →
  ∃ log' ret,
    add_property self prop log = (log', inr ret)
    ∧ second_q_ops (mkSettings false) ret
      = second_q_ops (mkSettings false) self.
Proof.
  intros Hother. do 2 eexists. unfold add_property, emit. run_eff.
  split; [reflexivity|]. unfold second_q_ops. cbn [negb dict_aux_operators].
  rewrite !fold_extend_with. do 3 f_equal.
  apply list_fmap_ext. intros _ cls _. unfold contribution, get_property.
  unfold GroupedProperty_get_property. simpl. rewrite dict_get_set.
  rewrite decide_False; [done|]. intros Heq. by apply (Hother cls).
Qed.

Lemma dict_update_fresh {V} (d other : dict V) :
  dict_wf (d ++ other) → dict_update d other = d ++ other.
Proof.
  unfold dict_update. revert d.
  induction other as [|[k v] other IH]; intros d Hwf; simpl.
  - by rewrite app_nil_r.
  - assert (k ∉ dict_keys d) as Hk.
    { unfold dict_wf, dict_keys in *. rewrite fmap_app in Hwf.
      apply NoDup_app in Hwf as (_ & Hdisjoint & _).
      intros Hin. apply (Hdisjoint k Hin). simpl. apply elem_of_cons. by left. }
    rewrite dict_set_fresh by done. rewrite IH; rewrite <-app_assoc; done.
Qed.

Lemma fold_update_with_fresh props ops :
  dict_wf (ops ++ concat (ops_dict <$> omap as_SecondQuantizedProperty props)) →
  fold_left update_with props ops
  = ops ++ concat (ops_dict <$> omap as_SecondQuantizedProperty props).
Proof.
  revert ops. induction props as [|prop props IH]; intros ops; simpl.
  - by rewrite app_nil_r.
  - unfold update_with at 2.
    destruct (as_SecondQuantizedProperty prop) as [sq|]; simpl; [|apply IH].
    rewrite app_assoc. intros Hwf. rewrite dict_update_fresh.
    + by apply IH.
    + unfold dict_wf, dict_keys in *. rewrite fmap_app in Hwf.
      by apply NoDup_app in Hwf as (? & _).
Qed.

(** X5: with the flag on and no key offered twice, nothing is overwritten:
    the mapping returned is the mappings of the SecondQuantizedProperty
    members one after the other, in iteration order. *)
Theorem second_q_ops_without_collision self :
  dict_wf (concat (ops_dict <$> omap as_SecondQuantizedProperty
                                     (GroupedProperty_iter (group self)))) →
  second_q_ops (mkSettings true) self
  = OpsDict (concat (ops_dict <$> omap as_SecondQuantizedProperty
                                       (GroupedProperty_iter (group self)))).
Proof.
  intros Hwf. unfold second_q_ops. cbn [negb dict_aux_operators]. f_equal.
  by rewrite fold_update_with_fresh.
Qed.
End OperatorCollectorMore.

(** ** More on the legacy adapter *)

Section LegacyAdapterMore.
Context `{Carriers} `{!Delegates} `{!Codec}.
Hypothesis decode_encode : ∀ member, decode (encode member) = Some member.

(** X6: on the instance converted from a [QMolecule], [second_q_ops] with
    the flag off returns the operators of ElectronicEnergy, ParticleNumber,
    AngularMomentum and Magnetization in this order, followed by those of
    ElectronicDipoleMoment exactly when the [QMolecule] has dipole
    integrals; with the flag on only these classes feed the mapping, the
    basis transform and the metadata adding nothing. *)
Theorem second_q_ops_after_legacy_conversion qmol :
  ∃ log ret,
    from_legacy_driver_result (LegacyQMolecule qmol) [] = (log, inr ret)
    ∧ second_q_ops (mkSettings false) ret
      = OpsList (ops_list (legacy_ops ElectronicEnergy qmol)
                 ++ ops_list (legacy_ops ParticleNumber qmol)
                 ++ ops_list (legacy_ops AngularMomentum qmol)
                 ++ ops_list (legacy_ops Magnetization qmol)
                 ++ (if has_dipole_integrals qmol
                     then ops_list (legacy_ops ElectronicDipoleMoment qmol)
                     else []))
    ∧ second_q_ops (mkSettings true) ret
      = OpsDict (fold_left dict_update
                   ((λ cls, ops_dict (legacy_ops cls qmol))
                      <$> [ElectronicEnergy; ParticleNumber; AngularMomentum;
                           Magnetization]
                          ++ (if has_dipole_integrals qmol
                              then [ElectronicDipoleMoment] else []))
                   []).
Proof.
  do 2 eexists. split; [apply from_legacy_driver_result_exact|].
  unfold legacy_properties. destruct (has_dipole_integrals qmol); split.
  - unfold second_q_ops. cbn [negb dict_aux_operators].
    rewrite fold_extend_with. simpl. by rewrite app_nil_r.
  - reflexivity.
  - unfold second_q_ops. cbn [negb dict_aux_operators].
    rewrite fold_extend_with. simpl. by rewrite !app_nil_r.
  - reflexivity.
Qed.

(** X7: the geometry is as long as the shorter of the two legacy lists: a
    symbol without coordinates, or coordinates without a symbol, are left out
    without an error; multiplicity and charge are taken over unchanged. *)
Theorem from_legacy_driver_result_molecule qmol :
  ∃ log ret m,
    from_legacy_driver_result (LegacyQMolecule qmol) [] = (log, inr ret)
    ∧ molecule ret = Some m
    ∧ length (geometry m)
      = length (atom_symbol qmol) `min` length (atom_xyz qmol)
    ∧ (geometry m).*1 = take (length (atom_xyz qmol)) (atom_symbol qmol)
    ∧ mol_multiplicity m = multiplicity qmol
    ∧ mol_charge m = molecular_charge qmol.
Proof.
  do 3 eexists. split; [apply from_legacy_driver_result_exact|]. simpl.
  split_and!; [done| | |done..].
  - simpl. by rewrite legacy_geometry_zip, length_zip_with.
  - simpl. rewrite legacy_geometry_zip. generalize (atom_xyz qmol).
    induction (atom_symbol qmol) as [|atom atoms IH]; intros [|xyz rows]; simpl;
      [done..|]. by rewrite IH.
Qed.

(** X8: on the instance converted from a [QMolecule], [get_property] finds
    the property built from this very [QMolecule] for ElectronicEnergy,
    ParticleNumber, AngularMomentum and Magnetization; for
    ElectronicDipoleMoment it finds it when the [QMolecule] has dipole
    integrals and answers [None] when it has none. *)
Theorem get_property_after_legacy_conversion qmol cls :
  ∃ log ret,
    from_legacy_driver_result (LegacyQMolecule qmol) [] = (log, inr ret)
    ∧ get_property ret cls
      = match cls with
        | ElectronicDipoleMoment =>
            if has_dipole_integrals qmol
            then Some (ElectronicProperty ElectronicDipoleMoment
                         (legacy_ops ElectronicDipoleMoment qmol))
            else None
        | _ => Some (ElectronicProperty cls (legacy_ops cls qmol))
        end.
Proof.
  do 2 eexists. split; [apply from_legacy_driver_result_exact|].
  unfold legacy_properties.
  by destruct (has_dipole_integrals qmol), cls.
Qed.

(** X10: the instance converted from a [QMolecule], written into a parent
    without a group of its name and read back, comes back with its molecule
    and with every property under its name, whenever the members' own
    serialization loses nothing. *)
Theorem round_trip_after_legacy_conversion qmol
    (parent : gmap string (gmap string Node)) :
  parent !! "ElectronicStructureDriverResult" = None →
  ∃ log ret ret',
    from_legacy_driver_result (LegacyQMolecule qmol) [] = (log, inr ret)
    ∧ round_trip ret parent = inr ret'
    ∧ molecule ret' = molecule ret
    ∧ ∀ prop, GroupedProperty_get_property (group ret') prop
              = GroupedProperty_get_property (group ret) prop.
Proof.
  intros Hfresh.
  destruct (from_legacy_driver_result_wf qmol) as (log & ret & Hret & Hwf).
  pose proof (from_legacy_driver_result_exact qmol []) as Hrun.
  rewrite Hret in Hrun. injection Hrun as _ Hrun.
  assert (∃ m, molecule ret = Some m) as [m Hm] by (rewrite Hrun; by eexists).
  destruct (hdf5_round_trip_steps decode_encode ret m parent)
    as (written & children & log' & ret' & Hto & Hgroup & Hfrom & Hmol & _ & Hget).
  - done.
  - done.
  - rewrite Hrun. unfold legacy_properties.
    destruct (has_dipole_integrals qmol); simpl; compute_done.
  - by rewrite Hrun.
  - exists log, ret, ret'. split_and!; [done| |done..].
    unfold round_trip. by rewrite Hto, Hgroup, Hfrom.
Qed.
End LegacyAdapterMore.

(** ** More on the persistence adapter *)

Section PersistenceMore.
Context `{Codec}.
Implicit Types (self ret : ElectronicStructureDriverResult).
Implicit Types (parent : gmap string (gmap string Node)).
Implicit Types (children : gmap string Node) (members : list Member).

Lemma fold_add_property_name (props : list Property)
    (g : GroupedProperty Property) :
  name (fold_left GroupedProperty_add_property props g) = name g.
Proof.
  revert g. induction props as [|prop props IH]; intros g; [done|].
  simpl. by rewrite IH.
Qed.

(** X11: whatever the name of the stored group, the instance that
    [from_hdf5] returns is named after the class, holds no name twice and
    keeps every property under the property's own name. *)
Theorem from_hdf5_fresh_instance h5py_group log log' ret :
  from_hdf5 h5py_group log = (log', inr ret) →
  name (group ret) = "ElectronicStructureDriverResult"
  ∧ group_wf (group ret).
Proof.
  unfold from_hdf5.
  destruct (GroupedProperty_from_hdf5 h5py_group) as [e|loaded] eqn:Hload;
    unfold lift; run_eff; [done|].
  rewrite for_each_route. intros [= _ <-]. simpl. split.
  - by rewrite fold_add_property_name.
  - apply fold_add_property_wf. split; [apply NoDup_nil_2 | apply Forall_nil_2].
Qed.

Lemma members_molecules_elem members m :
  m ∈ members_molecules members ↔ MoleculeMember m ∈ members.
Proof.
  unfold members_molecules. rewrite list_elem_of_omap. split.
  - intros ([m'|p] & Hin & Heq); [|done]. by injection Heq as ->.
  - intros Hin. by exists (MoleculeMember m).
Qed.

(** X12: the molecule of the instance that [from_hdf5] returns is the
    molecule-typed entry of the restored group, and there is none exactly
    when the group has no such entry. *)
Theorem from_hdf5_molecule h5py_group loaded m :
  GroupedProperty_from_hdf5 h5py_group = inr loaded →
  ∃ log ret,
    from_hdf5 h5py_group [] = (log, inr ret)
    ∧ (molecule ret = Some m ↔ MoleculeMember m ∈ GroupedProperty_iter loaded).
Proof.
  intros Hload. do 2 eexists. split; [by apply from_hdf5_run|]. simpl.
  destruct (GroupedProperty_from_hdf5_wf _ _ Hload) as [Hwf Hkeyed].
  pose proof (molecules_at_most_one _ Hwf Hkeyed) as Hone.
  rewrite <-members_molecules_elem. unfold GroupedProperty_iter in *.
  destruct (members_molecules (dict_values (properties loaded)))
    as [|m0 [|m1 rest]]; simpl in *.
  - split; [done|]. intros Hin. by apply elem_of_nil in Hin.
  - rewrite list_elem_of_singleton. split; [by intros [= ->] | by intros ->].
  - lia.
Qed.

Lemma ensure_group_other group_name k parent :
  k ≠ group_name → ensure_group group_name parent !! k = parent !! k.
Proof.
  intros Hne. unfold ensure_group.
  destruct (parent !! group_name); [done|]. by rewrite lookup_insert_ne.
Qed.

(** X13: [to_hdf5] touches no group of the parent but its own, whether it
    succeeds or raises. *)
Theorem to_hdf5_leaves_other_groups self parent k :
  k ≠ name (group self) →
  (to_hdf5 self parent).1 !! k = parent !! k.
Proof.
  intros Hne. rewrite to_hdf5_run, GroupedProperty_to_hdf5_run. simpl.
  destruct (molecule self); simpl;
    rewrite ?lookup_alter_ne by done; by apply ensure_group_other.
Qed.

Lemma to_hdf5_store self parent :
  (to_hdf5 self parent).1
  = alter (written_children self) (name (group self))
          (ensure_group (name (group self)) parent).
Proof.
  rewrite to_hdf5_run, GroupedProperty_to_hdf5_run. simpl.
  unfold written_children. destruct (molecule self); simpl; [|done].
  by rewrite alter_alter_eq.
Qed.

Lemma written_children_lookup self children k :
  group_wf (group self) →
  written_children self children !! k
  = match molecule self, decide (k = "Molecule") with
    | Some m, left _ => Some (encode (MoleculeMember m))
    | _, _ =>
        match GroupedProperty_get_property (group self) k with
        | Some p => Some (encode (PropertyMember p))
        | None => children !! k
        end
    end.
Proof.
  intros [Hwf Hkeyed]. unfold written_children, GroupedProperty_iter.
  destruct (molecule self) as [m|].
  - destruct (decide (k = "Molecule")) as [->|Hne].
    + by rewrite lookup_insert_eq.
    + rewrite lookup_insert_ne by done. by apply write_properties_lookup.
  - by apply write_properties_lookup.
Qed.

(** X14: after a successful [to_hdf5], the group of the instance holds the
    molecule under its name, every property under the property's name, and
    still every older child that bears neither of these names. *)
Theorem to_hdf5_children self m parent :
  group_wf (group self) →
  molecule self = Some m →
  ∃ children,
    (to_hdf5 self parent).1 !! name (group self) = Some children
    ∧ ∀ k, children !! k
           = if decide (k = "Molecule") then Some (encode (MoleculeMember m))
             else match GroupedProperty_get_property (group self) k with
                  | Some p => Some (encode (PropertyMember p))
                  | None => default ∅ (parent !! name (group self)) !! k
                  end.
Proof.
  intros Hwf Hm. eexists. split.
  - by rewrite to_hdf5_store, lookup_alter_eq, ensure_group_lookup.
  - intros k. rewrite written_children_lookup, Hm by done.
    by destruct (decide (k = "Molecule")).
Qed.

End PersistenceMore.

(** ** More on the round trip *)

Section RoundTripMore.
Context `{Codec}.
Hypothesis decode_encode : ∀ member, decode (encode member) = Some member.
Implicit Types (self ret : ElectronicStructureDriverResult).
Implicit Types (parent : gmap string (gmap string Node)).
Implicit Types (members : list Member) (d : dict Property).

(** The properties among restored members are those of a dictionary as soon
    as they are the same objects. *)
Lemma restored_properties members d :
  dict_wf d → keyed d → NoDup (name_of <$> members) →
  (∀ p, PropertyMember p ∈ members ↔ named p ∈ d) →
  named <$> members_properties members ≡ₚ d.
Proof.
  intros Hwf Hkeyed Hnd Hsame. apply NoDup_Permutation.
  - apply (NoDup_fmap_1 fst).
    fold (dict_keys (named <$> members_properties members)).
    rewrite dict_keys_named. by apply members_properties_NoDup.
  - by apply (NoDup_fmap_1 fst).
  - intros [k p]. rewrite list_elem_of_fmap. split.
    + intros (p' & -> & Hin). apply list_elem_of_omap in Hin as (member & Hin & Heq).
      destruct member as [|p'']; [done|]. injection Heq as ->. by apply Hsame.
    + intros Hin. pose proof (proj1 (Forall_forall _ _) Hkeyed _ Hin) as Hk.
      simpl in Hk. subst k. exists p. split; [done|].
      apply list_elem_of_omap. exists (PropertyMember p). split; [|done].
      by apply Hsame.
Qed.

(** X16: an instance without a molecule makes [to_hdf5] raise, but the group
    it has written by then reads back: [from_hdf5] returns an instance
    without a molecule and with the same properties. *)
Theorem to_hdf5_partial_write_reads_back self parent :
  group_wf (group self) →
  molecule self = None →
  parent !! name (group self) = None →
  ∃ written children log ret,
    to_hdf5 self parent = (written, inl (AttributeError "to_hdf5"))
    ∧ written !! name (group self) = Some children
    ∧ from_hdf5 (mkH5 (name (group self)) children) [] = (log, inr ret)
    ∧ molecule ret = None
    ∧ properties (group ret) ≡ₚ properties (group self).
Proof.
  intros [Hwf Hkeyed] Hm Hfresh.
  set (d := properties (group self)) in *.
  set (children := write_properties (dict_values d) ∅).
  assert (∀ k, children !! k = encode ∘ PropertyMember <$> dict_get k d)
    as Hchildren.
  { intros k. unfold children. rewrite write_properties_lookup by done.
    by destruct (dict_get k d). }
  destruct (GroupedProperty_from_hdf5_stored decode_encode
              (name (group self)) children) as (members & Hload & Hmembers).
  { intros k node. rewrite Hchildren.
    destruct (dict_get k d) as [p|] eqn:Hget; [|done]. intros [= <-].
    exists (PropertyMember p). unfold stored. simpl. f_equal.
    apply dict_get_Some_elem in Hget.
    by apply (proj1 (Forall_forall _ _) Hkeyed) in Hget. }
  assert (members_molecules members = []) as Hnone.
  { destruct (members_molecules members) as [|m rest] eqn:Hmols; [done|].
    assert (MoleculeMember m ∈ members) as Hin.
    { apply members_molecules_elem. rewrite Hmols. apply elem_of_cons. by left. }
    apply Hmembers in Hin. rewrite Hchildren in Hin.
    destruct (dict_get (name_of (MoleculeMember m)) d) as [p|]; [|done].
    simpl in Hin. injection Hin as Hin.
    by apply (encode_inj decode_encode) in Hin. }
  assert (∀ p, PropertyMember p ∈ members ↔ named p ∈ d) as Hprops.
  { intros p. rewrite Hmembers, Hchildren.
    change (name_of (PropertyMember p)) with (name_of p). split.
    - destruct (dict_get (name_of p) d) as [p'|] eqn:Hget; [|done].
      intros [= Henc]. apply (encode_inj decode_encode) in Henc.
      injection Henc as ->. by apply dict_get_Some_elem.
    - intros Hin. by rewrite (dict_get_elem _ _ _ Hwf Hin). }
  eexists _, children, _, _. split_and!.
  - rewrite to_hdf5_run, GroupedProperty_to_hdf5_run, Hm. simpl. reflexivity.
  - rewrite lookup_alter_eq, ensure_group_lookup, Hfresh. done.
  - by apply from_hdf5_run.
  - simpl. unfold GroupedProperty_iter. simpl.
    by rewrite dict_values_named, Hnone.
  - simpl. unfold GroupedProperty_iter. simpl. rewrite dict_values_named.
    apply restored_properties; [done..| |done].
    pose proof (GroupedProperty_from_hdf5_wf _ _ Hload) as [Hnd _].
    simpl in Hnd. unfold dict_wf in Hnd. by rewrite dict_keys_named in Hnd.
Qed.

(** X17: after the round trip of C1, [second_q_ops] with the flag off
    returns what it returned before, and with the flag on a mapping with
    the same keys. *)
Theorem second_q_ops_after_round_trip self m parent :
  group_wf (group self) →
  molecule self = Some m →
  "Molecule" ∉ dict_keys (properties (group self)) →
  parent !! name (group self) = None →
  ∃ ret,
    round_trip self parent = inr ret
    ∧ second_q_ops (mkSettings false) ret = second_q_ops (mkSettings false) self
    ∧ ∀ key, key ∈ dict_keys (operators_dict (second_q_ops (mkSettings true) ret))
             ↔ key ∈ dict_keys (operators_dict (second_q_ops (mkSettings true) self)).
Proof.
  intros Hwf Hm Hfree Hfresh.
  destruct (hdf5_round_trip_steps decode_encode self m parent Hwf Hm Hfree Hfresh)
    as (written & children & log & ret & Hto & Hgroup & Hfrom & _ & Hperm & Hget).
  exists ret. split_and!.
  - unfold round_trip. by rewrite Hto, Hgroup, Hfrom.
  - unfold second_q_ops. cbn [negb dict_aux_operators].
    rewrite !fold_extend_with. do 3 f_equal.
    apply list_fmap_ext. intros _ cls _. unfold contribution, get_property.
    by rewrite Hget.
  - intros key. unfold second_q_ops, operators_dict. cbn [negb dict_aux_operators].
    rewrite !fold_update_with_keys_iff.
    assert (∀ prop, prop ∈ GroupedProperty_iter (group ret)
                    ↔ prop ∈ GroupedProperty_iter (group self)) as Hiter.
    { intros prop. unfold GroupedProperty_iter, dict_values. by rewrite Hperm. }
    by setoid_rewrite Hiter.
Qed.
End RoundTripMore.

Section StoreRoundTrip.
Context `{Codec}.
Hypothesis decode_encode : ∀ member, decode (encode member) = Some member.
Implicit Types (children : gmap string Node) (members : list Member).

(** X18: a stored group that holds a molecule and in which every child is a
    member written under its own name is reproduced child by child when it
    is read with [from_hdf5] and the instance is written with [to_hdf5] into
    an empty parent. *)
Theorem from_hdf5_to_hdf5 group_name children m :
  (∀ k node, children !! k = Some node → ∃ member, (k, node) = stored member) →
  children !! "Molecule" = Some (encode (MoleculeMember m)) →
  ∃ log ret written,
    from_hdf5 (mkH5 group_name children) [] = (log, inr ret)
    ∧ to_hdf5 ret ∅ = (written, inr ())
    ∧ written !! "ElectronicStructureDriverResult" = Some children.
Proof.
  intros Hstored Hmol.
  destruct (GroupedProperty_from_hdf5_stored decode_encode group_name children
              Hstored) as (members & Hload & Hmembers).
  pose proof (from_hdf5_run _ _ [] Hload) as Hrun. simpl in Hrun.
  unfold GroupedProperty_iter in Hrun. simpl in Hrun.
  rewrite dict_values_named in Hrun.
  assert (last (members_molecules members) = Some m) as Hlast.
  { assert (∀ m', m' ∈ members_molecules members → m' = m) as Hall.
    { intros m' Hin%members_molecules_elem%Hmembers.
      change (name_of (MoleculeMember m')) with "Molecule" in Hin.
      rewrite Hmol in Hin. injection Hin as Hin.
      apply (encode_inj decode_encode) in Hin. by injection Hin. }
    destruct (last (members_molecules members)) as [m'|] eqn:Hlast.
    - f_equal. by apply Hall, last_Some_elem_of.
    - apply last_None in Hlast.
      assert (m ∈ members_molecules members) as Hin.
      { apply members_molecules_elem, Hmembers. by simpl. }
      rewrite Hlast in Hin. by apply elem_of_nil in Hin. }
  rewrite Hlast in Hrun.
  set (ret := mkResult
                (mkGroup "ElectronicStructureDriverResult"
                         (named <$> members_properties members)) (Some m)) in *.
  assert (group_wf (group ret)) as Hwf by by eapply from_hdf5_wf.
  exists (route_event <$> members), ret. eexists. split_and!; [done| |].
  - by rewrite to_hdf5_run, GroupedProperty_to_hdf5_run.
  - simpl. rewrite alter_alter_eq, lookup_alter_eq, ensure_group_lookup.
    rewrite lookup_empty. simpl. f_equal.
    change (written_children ret ∅ = children).
    apply map_eq. intros k. rewrite written_children_lookup by done. simpl.
    destruct (decide (k = "Molecule")) as [->|Hk]; [done|].
    unfold GroupedProperty_get_property. simpl.
    destruct (dict_get k (named <$> members_properties members)) as [p|] eqn:Hget.
    + apply dict_get_Some_elem, list_elem_of_fmap in Hget as (p' & [= -> ->] & Hin).
      apply list_elem_of_omap in Hin as ([|p''] & Hin & [= ->]).
      symmetry. by apply (Hmembers (PropertyMember p')).
    + rewrite lookup_empty. symmetry.
      destruct (children !! k) as [node|] eqn:Hnode; [|done]. exfalso.
      destruct (Hstored _ _ Hnode) as (member & [= -> ->]).
      apply Hmembers in Hnode. destruct member as [m'|p]; [done|].
      apply dict_get_None in Hget. apply Hget.
      rewrite dict_keys_named.
      change (name_of (PropertyMember p)) with (name_of p).
      apply (list_elem_of_fmap_2 name_of).
      apply list_elem_of_omap. by exists (PropertyMember p).
Qed.
End StoreRoundTrip.

(** ** The further statements at work on concrete instances *)

Section MoreInstances.
Import Examples.
#[local] Existing Instances carriers delegates codec.

Lemma complete_wf : group_wf (group complete).
Proof. split; [unfold dict_wf; compute_done | by repeat constructor]. Defined.

Lemma incomplete_wf : group_wf (group incomplete).
Proof. split; [unfold dict_wf; compute_done | by repeat constructor]. Defined.

Lemma codec_lossless (member : Member) : decode (encode member) = Some member.
Proof. reflexivity. Defined.

Lemma second_q_ops_without_operators_witness :
  second_q_ops (mkSettings false) silent = OpsList []
  ∧ second_q_ops (mkSettings true) silent = OpsDict [].
Proof.
  apply (second_q_ops_without_operators silent).
  intros prop ->%list_elem_of_singleton. reflexivity.
Defined.

Lemma second_q_ops_list_ignores_other_names_witness :
  ∃ log' ret,
    add_property incomplete custom [] = (log', inr ret)
    ∧ second_q_ops (mkSettings false) ret
      = second_q_ops (mkSettings false) incomplete.
Proof.
  apply (second_q_ops_list_ignores_other_names incomplete custom []).
  intros cls. destruct cls; discriminate.
Defined.

Lemma second_q_ops_without_collision_witness :
  second_q_ops (mkSettings true) complete
  = OpsDict [("ElectronicEnergy", "H"); ("ParticleNumber", "N"); ("Custom", "C")].
Proof.
  apply (second_q_ops_without_collision complete).
  unfold dict_wf. compute_done.
Defined.

Lemma round_trip_after_legacy_conversion_witness :
  ∃ log ret ret',
    from_legacy_driver_result (LegacyQMolecule h2) [] = (log, inr ret)
    ∧ round_trip ret ∅ = inr ret'
    ∧ molecule ret' = molecule ret
    ∧ ∀ prop, GroupedProperty_get_property (group ret') prop
              = GroupedProperty_get_property (group ret) prop.
Proof.
  apply (round_trip_after_legacy_conversion codec_lossless h2 ∅).
  reflexivity.
Defined.

Lemma from_hdf5_fresh_instance_witness :
  name (group incomplete) = "ElectronicStructureDriverResult"
  ∧ group_wf (group incomplete).
Proof.
  apply (from_hdf5_fresh_instance molecule_free []
           [PropertyAdded "ElectronicEnergy"] incomplete).
  by vm_compute.
Defined.

Lemma from_hdf5_molecule_witness :
  ∃ log ret,
    from_hdf5 stored_group [] = (log, inr ret)
    ∧ (molecule ret = Some h2_molecule
       ↔ MoleculeMember h2_molecule
         ∈ [MoleculeMember h2_molecule; PropertyMember energy]).
Proof.
  apply (from_hdf5_molecule stored_group
           (mkGroup "run-42" [("Molecule", MoleculeMember h2_molecule);
                              ("ElectronicEnergy", PropertyMember energy)])
           h2_molecule).
  by vm_compute.
Defined.

Lemma to_hdf5_leaves_other_groups_witness :
  (to_hdf5 complete (<["older" := ∅]> used_parent)).1 !! "older"
  = (<["older" := ∅]> used_parent : gmap string (gmap string Node)) !! "older".
Proof.
  apply (to_hdf5_leaves_other_groups complete (<["older" := ∅]> used_parent)
           "older").
  discriminate.
Defined.

Lemma to_hdf5_children_witness :
  ∃ children,
    (to_hdf5 complete used_parent).1 !! name (group complete) = Some children
    ∧ ∀ k, children !! k
           = if decide (k = "Molecule")
             then Some (encode (MoleculeMember h2_molecule))
             else match GroupedProperty_get_property (group complete) k with
                  | Some p => Some (encode (PropertyMember p))
                  | None => default ∅ (used_parent !! name (group complete)) !! k
                  end.
Proof.
  apply (to_hdf5_children complete h2_molecule used_parent complete_wf).
  reflexivity.
Defined.

Lemma to_hdf5_partial_write_reads_back_witness :
  ∃ written children log ret,
    to_hdf5 incomplete ∅ = (written, inl (AttributeError "to_hdf5"))
    ∧ written !! name (group incomplete) = Some children
    ∧ from_hdf5 (mkH5 (name (group incomplete)) children) [] = (log, inr ret)
    ∧ molecule ret = None
    ∧ properties (group ret) ≡ₚ properties (group incomplete).
Proof.
  apply (to_hdf5_partial_write_reads_back codec_lossless incomplete ∅
           incomplete_wf); reflexivity.
Defined.

Lemma second_q_ops_after_round_trip_witness :
  ∃ ret,
    round_trip complete ∅ = inr ret
    ∧ second_q_ops (mkSettings false) ret
      = second_q_ops (mkSettings false) complete
    ∧ ∀ key, key ∈ dict_keys (operators_dict (second_q_ops (mkSettings true) ret))
             ↔ key ∈ dict_keys (operators_dict
                                  (second_q_ops (mkSettings true) complete)).
Proof.
  apply (second_q_ops_after_round_trip codec_lossless complete h2_molecule ∅
           complete_wf); [reflexivity | compute_done | reflexivity].
Defined.

Lemma from_hdf5_to_hdf5_witness :
  ∃ log ret written,
    from_hdf5 stored_group [] = (log, inr ret)
    ∧ to_hdf5 ret ∅ = (written, inr ())
    ∧ written !! "ElectronicStructureDriverResult"
      = Some (h5_children stored_group).
Proof.
  apply (from_hdf5_to_hdf5 codec_lossless "run-42"
           (h5_children stored_group) h2_molecule).
  - intros k node Hk. simpl in Hk.
    apply lookup_insert_Some in Hk as [[<- <-]|[_ Hk]].
    + by exists (PropertyMember energy).
    + apply lookup_singleton_Some in Hk as [<- <-].
      by exists (MoleculeMember h2_molecule).
  - reflexivity.
Defined.
End MoreInstances.
